(** * Resume screener: text matching, scoring, highlighting, contact fields

    A shallow embedding of the pure functions of [Resume4.py]
    ([extract_skills], [score_resume], [highlight_text], [extract_email],
    [extract_phone] and the [matched_skills] comprehension of the main
    script), together with the part of Python's [re] module they rely on:
    [re.escape], the pattern parser, the backtracking matcher and the
    drivers [re.search], [re.sub] and [re.findall].  The main script is
    embedded as [main]: a function of the uploaded file, the job description
    and the files on disk, over the libraries that read documents and read
    and write the workbook of the log.

    Python strings are sequences of Unicode code points; they are lists of
    [N] here.  The Unicode character tables the matcher consults (word
    characters, digits, white space, case mappings) are not part of the
    program: every definition takes them as a record [unidb], and the
    general theorems hold for every such record.  Concrete runs use
    [basic_latin], which agrees with CPython's tables below code point 128. *)

From Stdlib Require Import ZArith List Bool Ascii String Lia.
From Stdlib Require Import Floats.SpecFloat.
From stdpp Require Import base option list gmap sorting.
Import ListNotations.

Local Open Scope nat_scope.

(** ** Strings *)

Abbreviation char := N.
Abbreviation pystr := (list char).

(** Code point of an ASCII character, and the Python string of an ASCII
    literal.  A backslash in a Rocq literal is an ordinary character, as in
    a Python raw string. *)
Definition cp (a : ascii) : char := N_of_ascii a.
Definition str (s : string) : pystr := map cp (list_ascii_of_string s).

Definition is_chr (a : ascii) (c : char) : bool := N.eqb c (cp a).
Definition in_range (lo hi : ascii) (c : char) : bool :=
  N.leb (cp lo) c && N.leb c (cp hi).
Definition mem_chr (c : char) (l : pystr) : bool := existsb (N.eqb c) l.
Definition is_ascii_letter (c : char) : bool :=
  in_range "a" "z" c || in_range "A" "Z" c.
Definition is_ascii_digit (c : char) : bool := in_range "0" "9" c.

(** [s[i:j]] for [0 <= i <= j]. *)
Definition slice (s : pystr) (i j : nat) : pystr := take (j - i) (drop i s).

(** ** Unicode tables *)

Record unidb := UniDB {
  isalnum : char -> bool;            (* Py_UNICODE_ISALNUM *)
  isdecimal : char -> bool;          (* Py_UNICODE_ISDECIMAL *)
  isspace : char -> bool;            (* Py_UNICODE_ISSPACE *)
  tolower : char -> char;            (* Py_UNICODE_TOLOWER *)
  toupper : char -> char;            (* Py_UNICODE_TOUPPER *)
  ignorecase_fixes : char -> pystr;  (* sre_compile._ignorecase_fixes *)
  str_lower : pystr -> pystr         (* str.lower *)
}.

Definition ascii_lower (c : char) : char :=
  if in_range "A" "Z" c then (c + 32)%N else c.
Definition ascii_upper (c : char) : char :=
  if in_range "a" "z" c then (c - 32)%N else c.

(** The tables restricted to Basic Latin.  The two case-folding fixes are
    the entries of CPython's table whose key is an ASCII letter. *)
Definition basic_latin : unidb := {|
  isalnum c := in_range "0" "9" c || in_range "A" "Z" c || in_range "a" "z" c;
  isdecimal c := in_range "0" "9" c;
  isspace c := (N.leb 9 c && N.leb c 13) || (N.leb 28 c && N.leb c 32);
  tolower := ascii_lower;
  toupper := ascii_upper;
  ignorecase_fixes c :=
    if is_chr "i" c then [305%N] else if is_chr "s" c then [383%N] else [];
  str_lower := map ascii_lower
|}.

(** ** Outcomes of a call into [re]

    [ReError] is Python's [re.error], raised when a pattern or a
    replacement template does not compile.  [Unsupported] marks pattern
    syntax outside the fragment modelled here; no theorem is stated about
    such patterns. *)

Inductive re_error :=
  | BadEscape | NothingToRepeat | MultipleRepeat | MinGreaterThanMax
  | UnterminatedSet | BadRange | UnbalancedParenthesis | MissingParenthesis
  | InvalidGroupReference.

Inductive result (A : Type) :=
  | Ok (a : A)
  | ReError (e : re_error)
  | Unsupported.
Arguments Ok {A} a.
Arguments ReError {A} e.
Arguments Unsupported {A}.

#[export] Instance result_ret : MRet result := fun A a => Ok a.
#[export] Instance result_bind : MBind result := fun A B f r =>
  match r with
  | Ok a => f a
  | ReError e => ReError e
  | Unsupported => Unsupported
  end.

Definition is_ok {A} (r : result A) : bool :=
  match r with Ok _ => true | _ => false end.

Module Re.

(** *** [re.escape] (Python 3.7 and later) *)

Definition special_chars : pystr :=
  str "()[]{}?*+-|^$\.&~# " ++ [9; 10; 13; 11; 12]%N.

Definition escape_char (c : char) : pystr :=
  if mem_chr c special_chars then [cp "\"; c] else [c].

Definition escape (s : pystr) : pystr := flat_map escape_char s.

(** *** Parsed patterns *)

Inductive category :=
  | CatDigit | CatNotDigit | CatSpace | CatNotSpace | CatWord | CatNotWord.

Inductive set_item :=
  | ILit (c : char)
  | IRange (lo hi : char)
  | ICat (k : category).

(** Items that consume exactly one character. *)
Inductive single :=
  | SLit (c : char)                            (* LITERAL *)
  | SAny                                       (* ANY *)
  | SIn (negate : bool) (items : list set_item). (* IN, NOT_LITERAL *)

Inductive at_code :=
  | AtBeginning | AtEnd | AtBeginningString | AtEndString
  | AtBoundary | AtNonBoundary.

Inductive regex :=
  | REmpty
  | RChar (s : single)
  | RAt (a : at_code)
  | RRepeat (lo : nat) (hi : option nat) (s : single)  (* greedy MAX_REPEAT *)
  | RGroup (n : nat) (r : regex)                       (* SUBPATTERN *)
  | RSeq (a b : regex).

(** A repeat without upper bound has [hi = None]; CPython bounds it by
    [MAXREPEAT], above the length of any text. *)

Definition seq_of (items : list regex) : regex := foldr RSeq REmpty items.

(** *** The pattern parser ([sre_parse]) *)

Definition category_of (c : char) : option category :=
  if is_chr "d" c then Some CatDigit else
  if is_chr "D" c then Some CatNotDigit else
  if is_chr "s" c then Some CatSpace else
  if is_chr "S" c then Some CatNotSpace else
  if is_chr "w" c then Some CatWord else
  if is_chr "W" c then Some CatNotWord else None.

(** Escapes that stand for one control character. *)
Definition control_escape (in_set : bool) (c : char) : option char :=
  if is_chr "a" c then Some 7%N else
  if is_chr "f" c then Some 12%N else
  if is_chr "n" c then Some 10%N else
  if is_chr "r" c then Some 13%N else
  if is_chr "t" c then Some 9%N else
  if is_chr "v" c then Some 11%N else
  if in_set && is_chr "b" c then Some 8%N else None.

(** [_escape]: the item denoted by a backslash followed by [c]. *)
Definition escape_item (c : char) : result regex :=
  match category_of c with
  | Some k => Ok (RChar (SIn false [ICat k]))
  | None =>
    if is_chr "b" c then Ok (RAt AtBoundary) else
    if is_chr "B" c then Ok (RAt AtNonBoundary) else
    if is_chr "A" c then Ok (RAt AtBeginningString) else
    if is_chr "Z" c then Ok (RAt AtEndString) else
    match control_escape false c with
    | Some k => Ok (RChar (SLit k))
    | None =>
      if is_ascii_digit c || is_chr "x" c || is_chr "u" c || is_chr "U" c
         || is_chr "N" c
      then Unsupported
      else if is_ascii_letter c then ReError BadEscape
      else Ok (RChar (SLit c))
    end
  end.

(** [_class_escape]: the same inside a character set. *)
Definition class_escape_item (c : char) : result set_item :=
  match category_of c with
  | Some k => Ok (ICat k)
  | None =>
    match control_escape true c with
    | Some k => Ok (ILit k)
    | None =>
      if is_ascii_digit c || is_chr "x" c || is_chr "u" c || is_chr "U" c
         || is_chr "N" c
      then Unsupported
      else if is_ascii_letter c then ReError BadEscape
      else Ok (ILit c)
    end
  end.

(** One member of a set: a literal or an escape.  Returns the item and the
    rest of the pattern. *)
Definition set_member (p : pystr) : result (set_item * pystr) :=
  match p with
  | [] => ReError UnterminatedSet
  | c :: rest =>
    if is_chr "\" c then
      match rest with
      | [] => ReError BadEscape
      | e :: rest' => it ← class_escape_item e; Ok (it, rest')
      end
    else Ok (ILit c, rest)
  end.

(** The body of a set, after the opening bracket and the optional caret.
    [acc] holds the items read so far, last first. *)
Fixpoint parse_set (fuel : nat) (p : pystr) (acc : list set_item)
  : result (list set_item * pystr) :=
  match fuel with
  | 0 => Unsupported
  | S fuel =>
    match p with
    | [] => ReError UnterminatedSet
    | c :: rest =>
      if is_chr "]" c && negb (bool_decide (acc = [])) then Ok (rev acc, rest)
      else
        '(code1, rest1) ← set_member p;
        match rest1 with
        | d :: rest2 =>
          if is_chr "-" d then
            match rest2 with
            | [] => ReError UnterminatedSet
            | e :: rest3 =>
              if is_chr "]" e then Ok (rev (ILit (cp "-") :: code1 :: acc), rest3)
              else
                '(code2, rest4) ← set_member rest2;
                match code1, code2 with
                | ILit lo, ILit hi =>
                  if N.ltb hi lo then ReError BadRange
                  else parse_set fuel rest4 (IRange lo hi :: acc)
                | _, _ => ReError BadRange
                end
            end
          else parse_set fuel rest1 (code1 :: acc)
        | [] => parse_set fuel rest1 (code1 :: acc)
        end
    end
  end.

(** The counts of a brace repeat.  [None]: the brace is a literal. *)
Fixpoint read_digits (p : pystr) : pystr * pystr :=
  match p with
  | c :: rest =>
    if is_ascii_digit c
    then let '(ds, rest') := read_digits rest in (c :: ds, rest')
    else ([], p)
  | [] => ([], [])
  end.

Definition int_of_digits (ds : pystr) : N :=
  fold_left (fun acc c => (acc * 10 + (c - cp "0"))%N) ds 0%N.

Definition MAXREPEAT : N := 4294967295.

Definition parse_brace (rest : pystr)
  : option (result (nat * option nat) * pystr) :=
  match rest with
  | [] => None
  | c0 :: _ =>
    if is_chr "}" c0 then None else
    let '(lo, r1) := read_digits rest in
    let '(hi, r2) :=
      match r1 with
      | c :: r => if is_chr "," c then read_digits r else (lo, r1)
      | [] => (lo, r1)
      end in
    match r2 with
    | c :: r3 =>
      if is_chr "}" c then
        let min := int_of_digits lo in
        let max := int_of_digits hi in
        if N.leb MAXREPEAT min || N.leb MAXREPEAT max then
          Some (Unsupported, r3)
        else if negb (bool_decide (hi = [])) && N.ltb max min then
          Some (ReError MinGreaterThanMax, r3)
        else
          Some (Ok (N.to_nat min,
                    if bool_decide (hi = []) then None
                    else Some (N.to_nat max)), r3)
      else None
    | [] => None
    end
  end.

(** Parser state: the items of the group being read (last first), the
    enclosing groups with their numbers and items, and the number of groups
    opened so far. *)
Record pstate := PState {
  cur : list regex;
  stack : list (nat * list regex);
  ngroups : nat
}.

Definition push (it : regex) (st : pstate) : pstate :=
  PState (it :: cur st) (stack st) (ngroups st).

(** Attach a repeat to the last item read. *)
Definition add_repeat (lo : nat) (hi : option nat) (st : pstate)
  : result pstate :=
  match cur st with
  | [] => ReError NothingToRepeat
  | RAt _ :: _ => ReError NothingToRepeat
  | RRepeat _ _ _ :: _ => ReError MultipleRepeat
  | RChar s :: items => Ok (PState (RRepeat lo hi s :: items) (stack st) (ngroups st))
  | _ :: _ => Unsupported
  end.

(** A repeat may be followed by a question mark (lazy) or, from Python
    3.11, a plus sign (possessive); neither is modelled. *)
Definition repeat_suffix (rest : pystr) : bool :=
  match rest with
  | c :: _ => is_chr "?" c || is_chr "+" c
  | [] => false
  end.

Fixpoint parse_loop (fuel : nat) (p : pystr) (st : pstate)
  : result (regex * nat) :=
  match fuel with
  | 0 => Unsupported
  | S fuel =>
    match p with
    | [] =>
      match stack st with
      | [] => Ok (seq_of (rev (cur st)), ngroups st)
      | _ :: _ => ReError MissingParenthesis
      end
    | c :: rest =>
      if is_chr "\" c then
        match rest with
        | [] => ReError BadEscape
        | e :: rest' => it ← escape_item e; parse_loop fuel rest' (push it st)
        end
      else if is_chr "[" c then
        let '(negate, body) :=
          match rest with
          | d :: rest' => if is_chr "^" d then (true, rest') else (false, rest)
          | [] => (false, rest)
          end in
        '(items, rest') ← parse_set (S (length body)) body [];
        let it :=
          match items, negate with
          | [ILit l], false => SLit l
          | _, _ => SIn negate items
          end in
        parse_loop fuel rest' (push (RChar it) st)
      else if is_chr "*" c || is_chr "+" c || is_chr "?" c then
        st' ← add_repeat (if is_chr "+" c then 1 else 0)
                         (if is_chr "?" c then Some 1 else None) st;
        if repeat_suffix rest then Unsupported else parse_loop fuel rest st'
      else if is_chr "{" c then
        match parse_brace rest with
        | None => parse_loop fuel rest (push (RChar (SLit c)) st)
        | Some (counts, rest') =>
          '(lo, hi) ← counts;
          st' ← add_repeat lo hi st;
          if repeat_suffix rest' then Unsupported else parse_loop fuel rest' st'
        end
      else if is_chr "." c then parse_loop fuel rest (push (RChar SAny) st)
      else if is_chr "^" c then parse_loop fuel rest (push (RAt AtBeginning) st)
      else if is_chr "$" c then parse_loop fuel rest (push (RAt AtEnd) st)
      else if is_chr "(" c then
        match rest with
        | d :: _ =>
          if is_chr "?" d then Unsupported
          else parse_loop fuel rest
                 (PState [] ((S (ngroups st), cur st) :: stack st) (S (ngroups st)))
        | [] => ReError MissingParenthesis
        end
      else if is_chr ")" c then
        match stack st with
        | [] => ReError UnbalancedParenthesis
        | (n, outer) :: stk =>
          parse_loop fuel rest
            (PState (RGroup n (seq_of (rev (cur st))) :: outer) stk (ngroups st))
        end
      else if is_chr "|" c then Unsupported
      else parse_loop fuel rest (push (RChar (SLit c)) st)
    end
  end.

Definition parse (p : pystr) : result (regex * nat) :=
  parse_loop (S (length p)) p (PState [] [] 0).

(** *** Compiled patterns ([re.compile])

    Only the flag [IGNORECASE] is modelled.  Under it a literal matches
    case-insensitively (see [lit_ignore]); anchors, the dot and categories
    are unaffected; sets with literals or ranges are outside the fragment. *)

Record pattern := Pattern {
  pat_re : regex;
  pat_groups : nat;
  pat_ignorecase : bool
}.

Definition case_free_single (s : single) : bool :=
  match s with
  | SLit _ | SAny => true
  | SIn negate items =>
    forallb (fun it => match it with ICat _ => true | _ => false end) items
  end.

Fixpoint case_free (r : regex) : bool :=
  match r with
  | REmpty | RAt _ => true
  | RChar s | RRepeat _ _ s => case_free_single s
  | RGroup _ r => case_free r
  | RSeq a b => case_free a && case_free b
  end.

Definition compile (ignorecase : bool) (p : pystr) : result pattern :=
  '(r, n) ← parse p;
  if ignorecase && negb (case_free r) then Unsupported
  else Ok (Pattern r n ignorecase).

(** *** The matcher ([_sre]) *)

Abbreviation captures := (list (option (nat * nat))).

(** A match: start, end, and the spans of the groups. *)
Definition rmatch : Type := nat * nat * captures.

Section Matcher.
Context (U : unidb) (ic : bool) (T : pystr).

Definition is_word (c : char) : bool := isalnum U c || is_chr "_" c.

Definition iscased (c : char) : bool :=
  negb (N.eqb c (tolower U c)) || negb (N.eqb c (toupper U c)).

(** What a literal [l] of an [IGNORECASE] pattern accepts: compiled to
    [LITERAL] when [l] has no case, else to a test of the lower-cased
    text character against [tolower l] and its fixes. *)
Definition lit_ignore (l c : char) : bool :=
  if iscased l
  then mem_chr (tolower U c) (tolower U l :: ignorecase_fixes U (tolower U l))
  else N.eqb c l.

Definition category_match (k : category) (c : char) : bool :=
  match k with
  | CatDigit => isdecimal U c
  | CatNotDigit => negb (isdecimal U c)
  | CatSpace => isspace U c
  | CatNotSpace => negb (isspace U c)
  | CatWord => is_word c
  | CatNotWord => negb (is_word c)
  end.

Definition item_match (it : set_item) (c : char) : bool :=
  match it with
  | ILit l => N.eqb c l
  | IRange lo hi => N.leb lo c && N.leb c hi
  | ICat k => category_match k c
  end.

Definition single_match (s : single) (c : char) : bool :=
  match s with
  | SLit l => if ic then lit_ignore l c else N.eqb c l
  | SAny => negb (N.eqb c 10)
  | SIn negate items => xorb negate (existsb (fun it => item_match it c) items)
  end.

Definition word_at (i : nat) : bool :=
  match T !! i with Some c => is_word c | None => false end.

Definition word_before (i : nat) : bool :=
  match i with 0 => false | S j => word_at j end.

(** [SRE_AT_BOUNDARY]: exactly one side of position [i] is a word
    character; never in an empty text. *)
Definition at_boundary (i : nat) : bool :=
  match T with
  | [] => false
  | _ :: _ => xorb (word_before i) (word_at i)
  end.

Definition at_match (a : at_code) (i : nat) : bool :=
  match a with
  | AtBeginning | AtBeginningString => Nat.eqb i 0
  | AtEndString => Nat.eqb i (length T)
  | AtEnd =>
    Nat.eqb i (length T)
    || (Nat.eqb (S i) (length T) && bool_decide (T !! i = Some 10%N))
  | AtBoundary => at_boundary i
  | AtNonBoundary =>
    match T with [] => false | _ :: _ => negb (at_boundary i) end
  end.

(** Longest run of characters accepted by [s] from position [i], at most
    [limit] long. *)
Fixpoint count_run (s : single) (i limit : nat) : nat :=
  match limit with
  | 0 => 0
  | S limit =>
    match T !! i with
    | Some c => if single_match s c then S (count_run s (S i) limit) else 0
    | None => 0
    end
  end.

Section Backtracking.
Context {R : Type}.

(** Greedy repeat: try the continuation after [n] characters, then
    after [n - 1], down to [lo]. *)
Fixpoint try_down (n lo i : nat) (k : nat -> option R) : option R :=
  if Nat.ltb n lo then None
  else
    match k (i + n) with
    | Some r => Some r
    | None =>
      match n with
      | 0 => None
      | S n' => try_down n' lo i k
      end
    end.

(** [m r i caps k]: match [r] at position [i], then run [k] on the end
    position and the captures; a [None] from [k] makes the matcher
    backtrack into [r]. *)
Fixpoint m (r : regex) (i : nat) (caps : captures)
    (k : nat -> captures -> option R) : option R :=
  match r with
  | REmpty => k i caps
  | RChar s =>
    match T !! i with
    | Some c => if single_match s c then k (S i) caps else None
    | None => None
    end
  | RAt a => if at_match a i then k i caps else None
  | RRepeat lo hi s =>
    let limit := match hi with Some h => h | None => length T - i end in
    try_down (count_run s i limit) lo i (fun j => k j caps)
  | RGroup n r => m r i caps (fun j c => k j (<[n := Some (i, j)]> c))
  | RSeq a b => m a i caps (fun j c => m b j c k)
  end.
End Backtracking.

Context (p : regex) (groups : nat).

(** One attempt at [start].  With [must_advance] an empty match is
    refused (the matcher then looks for a longer one). *)
Definition match_at (start : nat) (must_advance : bool) : option rmatch :=
  m p start (replicate (S groups) None)
    (fun e caps =>
       if must_advance && Nat.eqb e start then None
       else Some (start, e, <[0 := Some (start, e)]> caps)).

(** [SRE(search)]: the first start position at or after [start] with a
    match; [must_advance] binds the first attempt only. *)
Fixpoint scan (n start : nat) (must_advance : bool) : option rmatch :=
  match match_at start must_advance with
  | Some r => Some r
  | None =>
    match n with
    | 0 => None
    | S n' => scan n' (S start) false
    end
  end.

Definition search_from (start : nat) (must_advance : bool) : option rmatch :=
  scan (length T - start) start must_advance.

(** The loop shared by [re.sub] and [re.findall]: successive matches,
    each search starting where the previous match ended, an empty match
    forcing the next one to advance.  [None]: out of fuel, which the fuel
    of [all_matches] excludes (see [all_matches_total]). *)
Fixpoint matches_from (fuel pos : nat) (must_advance : bool)
  : option (list rmatch) :=
  match fuel with
  | 0 => None
  | S fuel =>
    match search_from pos must_advance with
    | None => Some []
    | Some (b, e, caps) =>
      rest ← matches_from fuel e (Nat.eqb e b);
      Some ((b, e, caps) :: rest)
    end
  end.

Definition all_matches : option (list rmatch) :=
  matches_from (2 * length T + 2) 0 false.

End Matcher.

Definition group_text (T : pystr) (caps : captures) (n : nat) : pystr :=
  match caps !! n with
  | Some (Some (b, e)) => slice T b e
  | _ => []
  end.

(** [re.search] *)
Definition search (U : unidb) (p : pattern) (T : pystr) : option rmatch :=
  search_from U (pat_ignorecase p) T (pat_re p) (pat_groups p) 0 false.

(** [re.findall]: the text of each match, or of its group when the pattern
    has one group. *)
Definition findall (U : unidb) (p : pattern) (T : pystr)
  : result (list pystr) :=
  match all_matches U (pat_ignorecase p) T (pat_re p) (pat_groups p) with
  | None => Unsupported
  | Some ms =>
    match pat_groups p with
    | 0 => Ok (map (fun '(b, e, _) => slice T b e) ms)
    | 1 => Ok (map (fun '(_, _, caps) => group_text T caps 1) ms)
    | _ => Unsupported
    end
  end.

(** Replacement templates ([sre_parse.parse_template]): literal text and
    references [\1] to [\9] to a group. *)
Inductive template_item :=
  | TLit (c : char)
  | TGroup (n : nat).

Fixpoint parse_template (groups : nat) (t : pystr)
  : result (list template_item) :=
  match t with
  | [] => Ok []
  | c :: rest =>
    if is_chr "\" c then
      match rest with
      | [] => ReError BadEscape
      | d :: rest' =>
        if in_range "1" "9" d then
          match rest' with
          | d' :: _ => if is_ascii_digit d' then Unsupported else
              let n := N.to_nat (d - cp "0") in
              if Nat.ltb groups n then ReError InvalidGroupReference
              else items ← parse_template groups rest'; Ok (TGroup n :: items)
          | [] =>
              let n := N.to_nat (d - cp "0") in
              if Nat.ltb groups n then ReError InvalidGroupReference
              else Ok [TGroup n]
          end
        else Unsupported
      end
    else items ← parse_template groups rest; Ok (TLit c :: items)
  end.

Definition expand (T : pystr) (caps : captures) (tpl : list template_item)
  : pystr :=
  flat_map (fun it =>
    match it with
    | TLit c => [c]
    | TGroup n => group_text T caps n
    end) tpl.

(** The text with every match replaced, copying what lies between matches;
    [pos] is the end of the previous match. *)
Fixpoint substitute (T : pystr) (tpl : list template_item) (pos : nat)
    (ms : list rmatch) : pystr :=
  match ms with
  | [] => drop pos T
  | (b, e, caps) :: rest =>
    slice T pos b ++ expand T caps tpl ++ substitute T tpl e rest
  end.

(** [re.sub] *)
Definition sub (U : unidb) (p : pattern) (repl : pystr) (T : pystr)
  : result pystr :=
  tpl ← parse_template (pat_groups p) repl;
  match all_matches U (pat_ignorecase p) T (pat_re p) (pat_groups p) with
  | None => Unsupported
  | Some ms => Ok (substitute T tpl 0 ms)
  end.

End Re.

(** ** Python numbers

    A float is an IEEE 754 binary64 value, in the representation of the
    standard library's [SpecFloat]. *)

Inductive pynum :=
  | PyInt (z : Z)
  | PyFloat (f : spec_float).

Definition float_mul : spec_float -> spec_float -> spec_float := SFmul 53 1024.
Definition float_leb : spec_float -> spec_float -> bool := SFleb.

(** [float(z)] *)
Definition float_of_int (z : Z) : spec_float := binary_normalize 53 1024 z 0 false.

(** The integer [z] as significand with exponent 0. *)
Definition exact_int (z : Z) : spec_float :=
  match z with
  | Z0 => S754_zero false
  | Zpos p => S754_finite false p 0
  | Zneg p => S754_finite true p 0
  end.

(** [a / b] on integers, [b] nonzero: the quotient rounded once to the
    nearest float. *)
Definition int_true_divide (a b : Z) : spec_float :=
  SFdiv 53 1024 (exact_int a) (exact_int b).

Definition float_100 : spec_float := float_of_int 100.

(** ** The functions of [Resume4.py] *)

(** The external language model [nlp]: a document carries the text of its
    noun chunks and its tokens with their part-of-speech tag. *)
Record token := Token { tok_text : pystr; pos_ : pystr }.
Record doc := Doc { noun_chunks : list pystr; doc_tokens : list token }.

Section Resume4.
Context (U : unidb).

Definition extract_skills (nlp : pystr -> doc) (text : pystr) : list pystr :=
  let d := nlp text in
  let candidates :=
    (str_lower U <$> filter (fun chunk => 1 < length chunk) (noun_chunks d))
    ++ ((fun t => str_lower U (tok_text t))
          <$> filter (fun t => (pos_ t = str "PROPN" \/ pos_ t = str "NOUN")
                               /\ 1 < length (tok_text t))
                     (doc_tokens d)) in
  elements (list_to_set candidates : gset pystr).

(** The pattern [rf"\b{re.escape(skill)}\b"]. *)
Definition word_pattern (skill : pystr) : pystr :=
  str "\b" ++ Re.escape skill ++ str "\b".

(** [re.search(rf"\b{re.escape(skill)}\b", resume_text, re.IGNORECASE)]
    as a truth value. *)
Definition skill_found (resume_text skill : pystr) : result bool :=
  p ← Re.compile true (word_pattern skill);
  mret (bool_decide (is_Some (Re.search U p resume_text))).

(** [sum(1 for skill in skills if re.search(...))] *)
Fixpoint count_found (resume_text : pystr) (skills : list pystr)
  : result nat :=
  match skills with
  | [] => mret 0
  | skill :: rest =>
    b ← skill_found resume_text skill;
    n ← count_found resume_text rest;
    mret (if b : bool then S n else n)
  end.

Definition score_resume (resume_text : pystr) (skills : list pystr)
  : result pynum :=
  matches ← count_found resume_text skills;
  mret (match skills with
        | [] => PyInt 0
        | _ :: _ =>
          PyFloat (float_mul
                     (int_true_divide (Z.of_nat matches)
                                      (Z.of_nat (length skills)))
                     float_100)
        end).

(** [[s for s in skills if re.search(...)]] of the main script. *)
Fixpoint matched_skills (resume_text : pystr) (skills : list pystr)
  : result (list pystr) :=
  match skills with
  | [] => mret []
  | s :: rest =>
    b ← skill_found resume_text s;
    ms ← matched_skills resume_text rest;
    mret (if b : bool then s :: ms else ms)
  end.

(** [sorted(skills, key=len, reverse=True)]: stable, longest first. *)
Fixpoint insert_by_len (s : pystr) (l : list pystr) : list pystr :=
  match l with
  | [] => [s]
  | x :: l' =>
    if Nat.ltb (length s) (length x) then x :: insert_by_len s l'
    else s :: l
  end.

Definition sorted_by_len_desc (skills : list pystr) : list pystr :=
  foldr insert_by_len [] skills.

Definition mark_template : pystr :=
  str "<mark style='background:#fee2e2; padding:0.1rem 0.2rem; border-radius:0.2rem;'>\1</mark>".

Definition highlight_pattern (skill : pystr) : pystr :=
  str "\b(" ++ Re.escape skill ++ str ")\b".

Fixpoint highlight_loop (text : pystr) (skills : list pystr) : result pystr :=
  match skills with
  | [] => mret text
  | skill :: rest =>
    p ← Re.compile true (highlight_pattern skill);
    text' ← Re.sub U p mark_template text;
    highlight_loop text' rest
  end.

Definition highlight_text (text : pystr) (skills : list pystr) : result pystr :=
  highlight_loop text (sorted_by_len_desc skills).

Definition not_found : pystr := str "Not found".

Definition email_pattern : pystr :=
  str "[a-zA-Z0-9._%+-]+@[a-zA-Z0-9.-]+\.[a-zA-Z]{2,}".

Definition extract_email (text : pystr) : result pystr :=
  p ← Re.compile false email_pattern;
  emails ← Re.findall U p text;
  mret (match emails with e :: _ => e | [] => not_found end).

Definition phone_pattern : pystr := str "(\+?\d[\d\s-]{7,}\d)".

Definition extract_phone (text : pystr) : result pystr :=
  p ← Re.compile false phone_pattern;
  phones ← Re.findall U p text;
  mret (match phones with e :: _ => e | [] => not_found end).

End Resume4.

(** ** What a pattern accepts

    [matches r i j]: the span [i, j) of the text is a match of [r], stated
    on positions so that anchors can look around the span.  This is the
    reference the backtracking matcher is checked against. *)

Section Semantics.
Context (U : unidb) (ic : bool) (T : pystr).

Definition accepts (s : Re.single) (p : nat) : Prop :=
  exists c, T !! p = Some c /\ Re.single_match U ic s c = true.

Fixpoint matches (r : Re.regex) (i j : nat) : Prop :=
  match r with
  | Re.REmpty => j = i
  | Re.RChar s => accepts s i /\ j = S i
  | Re.RAt a => Re.at_match U T a i = true /\ j = i
  | Re.RRepeat lo hi s =>
    i <= j /\ lo <= j - i /\ (forall h, hi = Some h -> j - i <= h)
    /\ forall p, i <= p < j -> accepts s p
  | Re.RGroup _ r => matches r i j
  | Re.RSeq a b => exists mid, matches a i mid /\ matches b mid j
  end.

(** A span that an attempt at [start] may report: a match, and not the
    empty match at [start] when the attempt must advance. *)
Definition admissible (p : Re.regex) (start : nat) (must_advance : bool)
    (b e : nat) : Prop :=
  matches p b e /\ ~ (must_advance = true /\ b = start /\ e = b).
End Semantics.

(** The patterns built from a skill, as the parser reads them: the
    characters of the skill as literals between two word-boundary anchors,
    inside group 1 for highlighting. *)
Definition literal_items (skill : pystr) : list Re.regex :=
  map (fun c => Re.RChar (Re.SLit c)) skill.

Definition word_re (skill : pystr) : Re.regex :=
  Re.seq_of (Re.RAt Re.AtBoundary :: literal_items skill ++ [Re.RAt Re.AtBoundary]).

Definition highlight_re (skill : pystr) : Re.regex :=
  Re.seq_of [Re.RAt Re.AtBoundary; Re.RGroup 1 (Re.seq_of (literal_items skill));
             Re.RAt Re.AtBoundary].

(** ** Occurrences of a skill, in the words of the specification

    A skill occurs at position [i] when its characters are found there,
    compared case-insensitively, between two word boundaries.  A word
    boundary is a position with a word character on exactly one side, so a
    skill that ends in a non-word character occurs only where a word
    character follows it. *)

Section Occurrence.
Context (U : unidb) (T : pystr).

Fixpoint literal_at (skill : pystr) (i : nat) : bool :=
  match skill with
  | [] => true
  | l :: rest =>
    match T !! i with
    | Some c => Re.lit_ignore U l c && literal_at rest (S i)
    | None => false
    end
  end.

Definition occurs_at (skill : pystr) (i : nat) : bool :=
  Re.at_boundary U T i && literal_at skill i
  && Re.at_boundary U T (i + length skill).

Definition has_occurrence (skill : pystr) : bool :=
  existsb (occurs_at skill) (seq 0 (S (length T))).

Definition occurrence_count (skills : list pystr) : nat :=
  length (List.filter has_occurrence skills).
End Occurrence.



(** The replacement template of [highlight_text] as [re.sub] reads it: the
    opening tag, the text of group 1, the closing tag. *)
Definition mark_items : list Re.template_item :=
  map Re.TLit
    (str "<mark style='background:#fee2e2; padding:0.1rem 0.2rem; border-radius:0.2rem;'>")
  ++ [Re.TGroup 1] ++ map Re.TLit (str "</mark>").

(** Highlighting the highlighted text once more, with the same skills. *)
Definition highlight_twice (U : unidb) (text : pystr) (skills : list pystr)
  : result pystr :=
  h ← highlight_text U text skills; highlight_text U h skills.

(** [m / n * 100] on floats. *)
Definition percentage (m n : nat) : spec_float :=
  float_mul (int_true_divide (Z.of_nat m) (Z.of_nat n)) float_100.

(** [f] is a float between zero and the float of significand [mb] and
    exponent [eb]. *)
Definition below (f : spec_float) (mb : positive) (eb : Z) : Prop :=
  match f with
  | S754_zero false => True
  | S754_finite false m e => (e <= eb /\ Zpos m <= Zpos mb * 2 ^ (eb - e))%Z
  | _ => False
  end.

(** ** The words a pattern without anchors accepts *)

Section Language.
Context (U : unidb).

Definition single_ok (s : Re.single) (c : char) : Prop :=
  Re.single_match U false s c = true.

Fixpoint lang (r : Re.regex) (w : pystr) : Prop :=
  match r with
  | Re.REmpty => w = []
  | Re.RChar s => exists c, w = [c] /\ single_ok s c
  | Re.RAt _ => False
  | Re.RRepeat lo hi s =>
    lo <= length w /\ (forall h, hi = Some h -> length w <= h)
    /\ Forall (single_ok s) w
  | Re.RGroup _ r => lang r w
  | Re.RSeq a b => exists w1 w2, w = w1 ++ w2 /\ lang a w1 /\ lang b w2
  end.
End Language.

Fixpoint anchor_free (r : Re.regex) : bool :=
  match r with
  | Re.RAt _ => false
  | Re.REmpty | Re.RChar _ | Re.RRepeat _ _ _ => true
  | Re.RGroup _ r => anchor_free r
  | Re.RSeq a b => anchor_free a && anchor_free b
  end.

(** [r] is the leftmost substring of [T] with property [P]: no substring
    that starts further left has it. *)
Definition leftmost_substring (P : pystr -> Prop) (T r : pystr) : Prop :=
  exists i j, i <= j <= length T /\ r = slice T i j /\ P r
    /\ forall i' j', i' <= j' <= length T -> P (slice T i' j') -> i <= i'.

Definition no_substring (P : pystr -> Prop) (T : pystr) : Prop :=
  forall i j, i <= j <= length T -> ~ P (slice T i j).

(** ** Contact fields, in the words of the specification *)

(** Characters permitted in the local part of an address: ASCII letters and
    digits and the five signs [._%+-]; in the domain: ASCII letters and
    digits, the dot and the hyphen. *)
Definition local_char (c : char) : bool :=
  is_ascii_letter c || is_ascii_digit c || mem_chr c (str "._%+-").

Definition domain_char (c : char) : bool :=
  is_ascii_letter c || is_ascii_digit c || mem_chr c (str ".-").

(** A local part, an at sign, a domain, a dot, and a top-level segment of
    two or more letters. *)
Definition is_email (w : pystr) : Prop :=
  exists loc dom tld,
    w = loc ++ str "@" ++ dom ++ str "." ++ tld
    /\ loc <> [] /\ Forall (fun c => local_char c = true) loc
    /\ dom <> [] /\ Forall (fun c => domain_char c = true) dom
    /\ 2 <= length tld /\ Forall (fun c => is_ascii_letter c = true) tld.

Definition phone_char (U : unidb) (c : char) : bool :=
  isdecimal U c || isspace U c || is_chr "-" c.

(** An optional plus sign, then at least nine digits, spaces and hyphens,
    the first and the last of them a digit. *)
Definition is_phone (U : unidb) (w : pystr) : Prop :=
  exists plus first middle last,
    w = plus ++ [first] ++ middle ++ [last]
    /\ (plus = [] \/ plus = str "+")
    /\ isdecimal U first = true /\ isdecimal U last = true
    /\ 7 <= length middle /\ Forall (fun c => phone_char U c = true) middle.

(** The two contact patterns as the parser reads them. *)
Definition email_re : Re.regex :=
  Re.seq_of
    [Re.RRepeat 1 None
       (Re.SIn false
          [Re.IRange (cp "a") (cp "z"); Re.IRange (cp "A") (cp "Z");
           Re.IRange (cp "0") (cp "9"); Re.ILit (cp "."); Re.ILit (cp "_");
           Re.ILit (cp "%"); Re.ILit (cp "+"); Re.ILit (cp "-")]);
     Re.RChar (Re.SLit (cp "@"));
     Re.RRepeat 1 None
       (Re.SIn false
          [Re.IRange (cp "a") (cp "z"); Re.IRange (cp "A") (cp "Z");
           Re.IRange (cp "0") (cp "9"); Re.ILit (cp "."); Re.ILit (cp "-")]);
     Re.RChar (Re.SLit (cp "."));
     Re.RRepeat 2 None
       (Re.SIn false [Re.IRange (cp "a") (cp "z"); Re.IRange (cp "A") (cp "Z")])].

Definition phone_body_re : Re.regex :=
  Re.seq_of
    [Re.RRepeat 0 (Some 1) (Re.SLit (cp "+"));
     Re.RChar (Re.SIn false [Re.ICat Re.CatDigit]);
     Re.RRepeat 7 None
       (Re.SIn false [Re.ICat Re.CatDigit; Re.ICat Re.CatSpace; Re.ILit (cp "-")]);
     Re.RChar (Re.SIn false [Re.ICat Re.CatDigit])].

Definition phone_re : Re.regex := Re.seq_of [Re.RGroup 1 phone_body_re].

(** ** Further notions for the theorems

    The two tags that [highlight_text] puts around a match. *)
Definition mark_open : pystr :=
  str "<mark style='background:#fee2e2; padding:0.1rem 0.2rem; border-radius:0.2rem;'>".
Definition mark_close : pystr := str "</mark>".

(** [r] is the leftmost substring of [T] with property [P] and the longest
    one that starts there. *)
Definition leftmost_longest_substring (P : pystr -> Prop) (T r : pystr) : Prop :=
  exists i j, i <= j <= length T /\ r = slice T i j /\ P r
    /\ forall i' j', i' <= j' <= length T -> P (slice T i' j') ->
         i < i' \/ (i = i' /\ j' <= j).

(** ** The rest of the main script *)

(** *** [round(score, 2)] *)

(** [n / d] rounded to the nearest integer, ties to even; [d] positive. *)
Definition round_half_even (n d : Z) : Z :=
  let q := (n / d)%Z in
  match Z.compare (2 * (n mod d)) d with
  | Lt => q
  | Gt => (q + 1)%Z
  | Eq => if Z.even q then q else (q + 1)%Z
  end.

(** [round(f, 2)] on a float, as [float.__round__] computes it: the decimal
    with two places nearest to the exact value of [f] (ties to even), read
    back as the float nearest to it.  Infinities and NaN are returned as
    they are, and a result of zero keeps the sign. *)
Definition float_round2 (f : spec_float) : spec_float :=
  match f with
  | S754_finite s m e =>
    let q := if Z.leb 0 e then (Zpos m * 2 ^ e * 100)%Z
             else round_half_even (Zpos m * 100) (2 ^ (- e)) in
    if Z.eqb q 0 then S754_zero s
    else SFdiv 53 1024 (exact_int (if s then (- q)%Z else q)) (exact_int 100)
  | _ => f
  end.

(** An int is its own rounding. *)
Definition py_round2 (x : pynum) : pynum :=
  match x with
  | PyInt z => PyInt z
  | PyFloat f => PyFloat (float_round2 f)
  end.

(** *** Strings *)

(** [sep.join(parts)] *)
Fixpoint join (sep : pystr) (parts : list pystr) : pystr :=
  match parts with
  | [] => []
  | [p] => p
  | p :: rest => p ++ sep ++ join sep rest
  end.

(** [s.lstrip()] *)
Fixpoint lstrip (U : unidb) (s : pystr) : pystr :=
  match s with
  | c :: rest => if isspace U c then lstrip U rest else s
  | [] => []
  end.

(** [s.strip()]: without the white space at both ends. *)
Definition strip (U : unidb) (s : pystr) : pystr :=
  rev (lstrip U (rev (lstrip U s))).

(** [s.endswith(suffix)] *)
Definition endswith (s suffix : pystr) : bool :=
  Nat.leb (length suffix) (length s)
  && bool_decide (drop (length s - length suffix) s = suffix).

(** *** The screening log ([pandas])

    A frame has ordered column labels, a number of rows, and a cell for
    every row and label; a cell without a value is [CellNaN].  Labels are
    strings and distinct, as [read_excel] returns them for a sheet with a
    header of text.

    A number cell holds a value, not a Python type: pandas keeps a column
    under one dtype and casts the numbers of a column when rows are added
    (the int 0 is held as 0.0 once a float or a missing value joins the
    column), so the cell of a number is the binary64 float of its value,
    whichever dtype the column has.  [CellNaN] is the missing value. *)

Inductive cell :=
  | CellStr (s : pystr)
  | CellNum (v : spec_float)
  | CellNaN
  | CellOther (repr : pystr).   (* a date or another value of the sheet *)

(** A value of the dict [new_row]: a string or a number. *)
Inductive pyval :=
  | VStr (s : pystr)
  | VNum (x : pynum).

(** The cell that holds a value of the dict. *)
Definition cell_of_value (v : pyval) : cell :=
  match v with
  | VStr s => CellStr s
  | VNum (PyInt z) => CellNum (float_of_int z)
  | VNum (PyFloat S754_nan) => CellNaN
  | VNum (PyFloat f) => CellNum f
  end.

Record dataframe := DataFrame {
  df_columns : list pystr;
  df_len : nat;
  df_cell : nat -> pystr -> cell
}.

(** The cell of row [i] under [col], for a row and a label the frame has. *)
Definition cell_at (df : dataframe) (i : nat) (col : pystr) : option cell :=
  if bool_decide (i < df_len df /\ col ∈ df_columns df)
  then Some (df_cell df i col) else None.

(** The value of a key in a dict written as a list of items. *)
Fixpoint dict_get (items : list (pystr * pyval)) (key : pystr) : option pyval :=
  match items with
  | [] => None
  | (k, v) :: rest => if bool_decide (k = key) then Some v else dict_get rest key
  end.

(** [pd.DataFrame([record])]: one row, the keys of the dict as columns. *)
Definition frame_of_record (record : list (pystr * pyval)) : dataframe :=
  DataFrame (record.*1) 1
    (fun _ col => from_option cell_of_value CellNaN (dict_get record col)).

(** [df[col] = value] with a scalar: a new last column, or an existing
    column overwritten. *)
Definition set_column (col : pystr) (value : cell) (df : dataframe) : dataframe :=
  DataFrame
    (if bool_decide (col ∈ df_columns df) then df_columns df
     else df_columns df ++ [col])
    (df_len df)
    (fun i c => if bool_decide (c = col) then value else df_cell df i c).

(** [pd.concat([a, b], ignore_index=True)]: the rows of [a], then those of
    [b]; the columns of [a], then the new ones of [b]; the missing value
    where a frame lacks a column.  The cast of a column to a common dtype
    leaves the value of each cell as it is. *)
Definition concat (a b : dataframe) : dataframe :=
  DataFrame
    (df_columns a ++ filter (fun c => c ∉ df_columns a) (df_columns b))
    (df_len a + df_len b)
    (fun i c =>
       if bool_decide (i < df_len a)
       then if bool_decide (c ∈ df_columns a) then df_cell a i c else CellNaN
       else if bool_decide (c ∈ df_columns b) then df_cell b (i - df_len a) c
            else CellNaN).

(** The dict [new_row] of the main script, in the order of its keys. *)
Definition new_row (timestamp filename email phone : pystr) (score : pynum)
    (matched_skills skills : list pystr) : list (pystr * pyval) :=
  [(str "Timestamp", VStr timestamp);
   (str "Filename", VStr filename);
   (str "Email", VStr email);
   (str "Contact_Number", VStr phone);
   (str "Match_Score(%)", VNum (py_round2 score));
   (str "Matched_Skills", VStr (join (str ", ") matched_skills));
   (str "Total_Skills", VNum (PyInt (Z.of_nat (length skills))));
   (str "Matched_Skills_Count", VNum (PyInt (Z.of_nat (length matched_skills))))].

(** [if col not in df.columns: df[col] = ""] *)
Definition backfill (col : pystr) (df : dataframe) : dataframe :=
  if bool_decide (col ∉ df_columns df) then set_column col (CellStr []) df
  else df.

(** The frame written back to the log: [existing] is the frame read from
    the log file, [None] when there is no file yet. *)
Definition updated_log (existing : option dataframe)
    (row : list (pystr * pyval)) : dataframe :=
  match existing with
  | Some df =>
    concat (backfill (str "Contact_Number") (backfill (str "Email") df))
           (frame_of_record row)
  | None => frame_of_record row
  end.

(** *** The script

    The inputs of a run are the uploaded file, the job description and the
    files on disk, a map from paths to contents.  The libraries that read
    and write documents and workbooks are functions of a file's bytes,
    [None] where they raise; [writable] tells whether opening a path and
    writing the data to it succeeds, given the files there are; [now] is
    the formatted time of the run. *)

Record upload := Upload { up_name : pystr; up_buffer : list Byte.byte }.

(** The screening a run shows (lines 100 to 128). *)
Record screening := Screening {
  shown_email : pystr;
  shown_phone : pystr;
  shown_score : pynum;
  shown_skills : list pystr;
  shown_matched : list pystr;
  shown_resume : pystr
}.

(** What a run did.  [out_shown]: the screening it showed, if it got that
    far.  [out_files]: the files after the run; [None] after an exception
    in a write or while saving, when the model does not say what is on
    disk.  [out_records]: the list of past records at the end of the script
    (lines 155 to 161), [Some None] for the note that nothing is logged
    yet; [None] when an exception ended the run, there or earlier. *)
Record outcome := Outcome {
  out_shown : option screening;
  out_files : option (gmap pystr (list Byte.byte));
  out_records : option (option dataframe)
}.

Definition EXCEL_DB : pystr := str "screening_results.xlsx".

Section Main.
Context (U : unidb) (nlp : pystr -> doc).
Context (extract_text : list Byte.byte -> option pystr).
Context (paragraphs : list Byte.byte -> option (list pystr)).
Context (read_excel : list Byte.byte -> option dataframe).
Context (to_excel : dataframe -> option (list Byte.byte)).
Context (writable : gmap pystr (list Byte.byte) -> pystr -> list Byte.byte -> bool).
Context (now : pystr).

(** [open(path, "wb")] and the write: the file holds the data, or an
    exception. *)
Definition write_file (fs : gmap pystr (list Byte.byte)) (path : pystr)
    (data : list Byte.byte) : option (gmap pystr (list Byte.byte)) :=
  if writable fs path data then Some (<[path := data]> fs) else None.

Definition read_pdf (fs : gmap pystr (list Byte.byte)) (file_path : pystr)
  : option pystr :=
  fs !! file_path ≫= extract_text.

(** The texts of the paragraphs, joined by line feeds. *)
Definition read_docx (fs : gmap pystr (list Byte.byte)) (file_path : pystr)
  : option pystr :=
  join [10%N] <$> (fs !! file_path ≫= paragraphs).

(** Lines 142 to 151: the log is read if it exists, the row added, the log
    written. *)
Definition save_to_excel (fs : gmap pystr (list Byte.byte))
    (row : list (pystr * pyval)) : option (gmap pystr (list Byte.byte)) :=
  df ← match fs !! EXCEL_DB with
       | Some bytes => (fun df => updated_log (Some df) row) <$> read_excel bytes
       | None => Some (updated_log None row)
       end;
  bytes ← to_excel df;
  write_file fs EXCEL_DB bytes.

(** Lines 155 to 161: the log is read again, if there is one, and listed. *)
Definition past_records (fs : gmap pystr (list Byte.byte))
  : option (option dataframe) :=
  match fs !! EXCEL_DB with
  | Some bytes => Some <$> read_excel bytes
  | None => Some None
  end.

Definition main (fs : gmap pystr (list Byte.byte))
    (uploaded_file : option upload) (job_description : pystr)
  : result outcome :=
  match uploaded_file with
  | Some f =>
    if bool_decide (strip U job_description <> []) then
      let temp_file := str "temp_" ++ up_name f in
      match write_file fs temp_file (up_buffer f) with
      | Some fs1 =>
        match (if endswith (up_name f) (str ".pdf")
               then read_pdf fs1 temp_file
               else read_docx fs1 temp_file) with
        | Some resume_text =>
          let skills := extract_skills U nlp job_description in
          score ← score_resume U resume_text skills;
          matched ← matched_skills U resume_text skills;
          email ← extract_email U resume_text;
          phone ← extract_phone U resume_text;
          highlighted_resume ← highlight_text U resume_text matched;
          let shown := Screening email phone score skills matched
                                 highlighted_resume in
          let row := new_row now (up_name f) email phone score matched skills in
          match save_to_excel fs1 row with
          | Some fs2 => mret (Outcome (Some shown) (Some fs2) (past_records fs2))
          | None => mret (Outcome (Some shown) None None)
          end
        | None => mret (Outcome None (Some fs1) None)
        end
      | None => mret (Outcome None None None)
      end
    else mret (Outcome None (Some fs) (past_records fs))
  | None => mret (Outcome None (Some fs) (past_records fs))
  end.

(** The log saved for one row after the other (the part of successive runs
    that touches the log). *)
Fixpoint save_all (fs : gmap pystr (list Byte.byte))
    (rows : list (list (pystr * pyval))) : option (gmap pystr (list Byte.byte)) :=
  match rows with
  | [] => Some fs
  | row :: rest => save_to_excel fs row ≫= (fun fs' => save_all fs' rest)
  end.
End Main.

(** *** The log over several runs *)

(** The keys of the logged row, in the order of the dict. *)
Definition row_keys : list pystr :=
  [str "Timestamp"; str "Filename"; str "Email"; str "Contact_Number";
   str "Match_Score(%)"; str "Matched_Skills"; str "Total_Skills";
   str "Matched_Skills_Count"].

Definition is_finite (f : spec_float) : bool :=
  match f with
  | S754_zero _ | S754_finite _ _ _ => true
  | _ => false
  end.

(** Every row of the frame holds a finite number as its score, and so is
    not an empty row of the sheet. *)
Definition scored (df : dataframe) : Prop :=
  forall i, i < df_len df ->
    exists v, df_cell df i (str "Match_Score(%)") = CellNum v
              /\ is_finite v = true.

(** A row with the keys of [new_row] and a finite number as its score. *)
Definition scored_row (row : list (pystr * pyval)) : Prop :=
  row.*1 = row_keys
  /\ exists v, cell_of_value <$> dict_get row (str "Match_Score(%)")
               = Some (CellNum v)
               /\ is_finite v = true.

(** The workbook of a frame with the columns of [new_row] and a score in
    every row reads back with the same columns, as many rows, and a score
    in every row. *)
Definition workbook_keeps_shape
    (read_excel : list Byte.byte -> option dataframe)
    (to_excel : dataframe -> option (list Byte.byte)) : Prop :=
  forall df bytes,
    df_columns df = row_keys -> scored df -> to_excel df = Some bytes ->
    exists df', read_excel bytes = Some df'
      /\ df_columns df' = row_keys /\ df_len df' = df_len df /\ scored df'.

(** *** Sample inputs of the runs below *)

(** A log written before the contact columns existed. *)
Definition old_log : dataframe :=
  DataFrame [str "Filename"; str "Match_Score(%)"] 1
    (fun _ col => if bool_decide (col = str "Filename")
                  then CellStr (str "cv.pdf") else CellNum (S754_zero false)).

Definition jane_row : list (pystr * pyval) :=
  new_row (str "2025-01-01 09:00:00") (str "jane.docx") (str "jane@x.org")
    not_found (PyFloat float_100) [str "python"] [str "python"].

(** Libraries of a run: a PDF reader that returns one line of text, a
    language model with one noun chunk, and a workbook that holds the
    number of rows of the frame. *)
Definition pdf_text (bytes : list Byte.byte) : option pystr :=
  Some (str "Python developer, jane@x.org").
Definition no_paragraphs (bytes : list Byte.byte) : option (list pystr) := None.
Definition workbook_bytes (df : dataframe) : option (list Byte.byte) :=
  Some (repeat Byte.x00 (df_len df)).
Definition workbook_frame (bytes : list Byte.byte) : option dataframe :=
  Some (DataFrame row_keys (length bytes)
          (fun _ col => if bool_decide (col = str "Match_Score(%)")
                        then CellNum (S754_zero false) else CellNaN)).
Definition always_writable (fs : gmap pystr (list Byte.byte)) (path : pystr)
    (data : list Byte.byte) : bool := true.
Definition python_doc (text : pystr) : doc := Doc [str "Python"] [].

(** ** Proof steps used more than once *)

(** Close [is_chr a c = false] with a hypothesis on the code point of [a]. *)
Ltac is_chr_false :=
  unfold is_chr;
  match goal with
  | |- N.eqb _ ?k = false =>
    let k' := eval vm_compute in k in change k with k'; assumption
  end.

(** Take a [Forall] over an explicit list apart, one hypothesis per element. *)
Ltac split_Forall :=
  repeat match goal with
    | H : Forall _ (_ :: _) |- _ => apply Forall_cons in H as [? H]
    end.

(** * The matcher meets its specification *)

Section MatcherFacts.
Context (U : unidb) (ic : bool) (T : pystr).

Local Abbreviation count_run := (Re.count_run U ic T).
Local Abbreviation accepts := (accepts U ic T).
Local Abbreviation matches := (matches U ic T).

Lemma count_run_le s i limit : count_run s i limit <= limit.
Proof.
  revert i; induction limit as [|l IH]; intros i; simpl; [lia|].
  destruct (T !! i) as [c|]; [|lia].
  destruct (Re.single_match U ic s c); [|lia].
  specialize (IH (S i)); lia.
Qed.

Lemma count_run_accepts s i limit p :
  i <= p < i + count_run s i limit -> accepts s p.
Proof.
  revert i; induction limit as [|l IH]; intros i; simpl; [lia|].
  destruct (T !! i) as [c|] eqn:Hc; [|lia].
  destruct (Re.single_match U ic s c) eqn:Hm; [|lia].
  intros Hp. destruct (decide (p = i)) as [->|Hne].
  - exists c; auto.
  - apply (IH (S i)); lia.
Qed.

Lemma count_run_maximal s i limit n :
  n <= limit -> (forall p, i <= p < i + n -> accepts s p) ->
  n <= count_run s i limit.
Proof.
  revert i n; induction limit as [|l IH]; intros i n Hn Hall; simpl; [lia|].
  destruct n as [|n]; [lia|].
  destruct (Hall i) as (c & Hc & Hm); [lia|].
  rewrite Hc, Hm.
  specialize (IH (S i) n). 
  assert (n <= count_run s (S i) l); [|lia].
  apply IH; [lia|]. intros p Hp; apply Hall; lia.
Qed.

Lemma accepts_lt s p : accepts s p -> p < length T.
Proof. intros (c & Hc & _). by apply lookup_lt_Some in Hc. Qed.

Section Backtracking.
Context {R : Type}.
Implicit Types k : nat -> Re.captures -> option R.

Lemma try_down_sound n lo i (k : nat -> option R) r :
  Re.try_down n lo i k = Some r ->
  exists j, lo <= j <= n /\ k (i + j) = Some r.
Proof.
  induction n as [|n IH]; simpl.
  - destruct (Nat.ltb_spec 0 lo); [done|].
    destruct (k (i + 0)) eqn:Hk; [|done].
    intros [= <-]. exists 0; split; [lia|done].
  - destruct (Nat.ltb_spec (S n) lo); [done|].
    destruct (k (i + S n)) eqn:Hk.
    + intros [= <-]. exists (S n); split; [lia|done].
    + intros Hr. destruct (IH Hr) as (j & Hj & Hkj).
      exists j; split; [lia|done].
Qed.

Lemma try_down_complete n lo i (k : nat -> option R) j :
  lo <= j <= n -> is_Some (k (i + j)) -> is_Some (Re.try_down n lo i k).
Proof.
  induction n as [|n IH]; simpl; intros Hj Hk.
  - assert (j = 0) as -> by lia.
    destruct (Nat.ltb_spec 0 lo); [lia|].
    destruct Hk as [r ->]; eauto.
  - destruct (Nat.ltb_spec (S n) lo); [lia|].
    destruct (k (i + S n)) eqn:Hk'; [eauto|].
    destruct (decide (j = S n)) as [->|Hne].
    + rewrite Hk' in Hk. by destruct Hk.
    + apply IH; [lia|done].
Qed.

(** A successful run went through some span the pattern accepts. *)
Lemma m_sound r i caps k res :
  Re.m U ic T r i caps k = Some res ->
  exists j caps', matches r i j /\ length caps' = length caps
                  /\ k j caps' = Some res.
Proof.
  revert i caps k res.
  induction r as [|s|a|lo hi s|n r IH|a IHa b IHb];
    intros i caps k res; simpl.
  - intros Hk. by exists i, caps.
  - destruct (T !! i) as [c|] eqn:Hc; [|done].
    destruct (Re.single_match U ic s c) eqn:Hm; [|done].
    intros Hk. exists (S i), caps. repeat split; [|done].
    by exists c.
  - destruct (Re.at_match U T a i) eqn:Ha; [|done].
    intros Hk. by exists i, caps.
  - intros Hk. apply try_down_sound in Hk as (j & Hj & Hk).
    exists (i + j), caps. split; [|done].
    set (limit := match hi with Some h => h | None => length T - i end) in *.
    pose proof (count_run_le s i limit) as Hle.
    repeat split; [lia|lia| |].
    + intros h ->. simpl in *. lia.
    + intros p Hp. apply (count_run_accepts s i limit). lia.
  - intros Hk. apply IH in Hk as (j & caps' & Hm & Hlen & Hk).
    exists j, (<[n := Some (i, j)]> caps'). rewrite length_insert. done.
  - intros Hk. apply IHa in Hk as (mid & caps1 & Hma & Hlen1 & Hk).
    apply IHb in Hk as (j & caps2 & Hmb & Hlen2 & Hk).
    exists j, caps2. split; [by exists mid|]. split; [congruence|done].
Qed.

(** If some accepted span leads to a continuation that succeeds
    whatever the captures, the matcher succeeds. *)
Lemma m_complete r i j caps k :
  matches r i j -> (forall c, is_Some (k j c)) ->
  is_Some (Re.m U ic T r i caps k).
Proof.
  revert i j caps k.
  induction r as [|s|a|lo hi s|n r IH|a IHa b IHb];
    intros i j caps k; simpl.
  - intros -> Hk. apply Hk.
  - intros [(c & Hc & Hm) ->] Hk. rewrite Hc, Hm. apply Hk.
  - intros [Ha ->] Hk. rewrite Ha. apply Hk.
  - intros (Hij & Hlo & Hhi & Hall) Hk.
    set (limit := match hi with Some h => h | None => length T - i end).
    apply (try_down_complete _ _ _ _ (j - i)).
    + split; [done|]. apply count_run_maximal.
      * subst limit. destruct hi as [h|]; [by apply Hhi|].
        destruct (decide (j = i)) as [->|Hne]; [lia|].
        specialize (Hall (j - 1)). 
        assert (j - 1 < length T); [|lia].
        apply (accepts_lt s). apply Hall. lia.
      * intros p Hp. apply Hall. lia.
    + replace (i + (j - i)) with j by lia. apply Hk.
  - intros Hm Hk. eapply IH; [exact Hm|]. intros c. apply Hk.
  - intros (mid & Hma & Hmb) Hk. eapply IHa; [exact Hma|].
    intros c. eapply IHb; [exact Hmb|exact Hk].
Qed.
End Backtracking.

Lemma matches_le r i j : matches r i j -> i <= j.
Proof.
  revert i j; induction r as [|s|a|lo hi s|n r IH|a IHa b IHb];
    intros i j; simpl.
  - lia.
  - intros [_ ->]; lia.
  - intros [_ ->]; lia.
  - lia.
  - apply IH.
  - intros (mid & Ha & Hb). apply IHa in Ha. apply IHb in Hb. lia.
Qed.

Lemma matches_bounded r i j : matches r i j -> i <= length T -> j <= length T.
Proof.
  revert i j; induction r as [|s|a|lo hi s|n r IH|a IHa b IHb];
    intros i j; simpl.
  - lia.
  - intros [Hs ->] _. apply accepts_lt in Hs. lia.
  - intros [_ ->]; lia.
  - intros (Hij & _ & _ & Hall) Hi.
    destruct (decide (j = i)) as [->|Hne]; [lia|].
    specialize (Hall (j - 1)). 
    assert (j - 1 < length T); [|lia].
    apply (accepts_lt s). apply Hall. lia.
  - apply IH.
  - intros (mid & Ha & Hb) Hi. eapply IHb; [exact Hb|]. eapply IHa; eauto.
Qed.

(** *** Searching *)

Context (p : Re.regex) (groups : nat).

Local Abbreviation match_at := (Re.match_at U ic T p groups).
Local Abbreviation scan := (Re.scan U ic T p groups).
Local Abbreviation search_from := (Re.search_from U ic T p groups).
Local Abbreviation matches_from := (Re.matches_from U ic T p groups).

Local Abbreviation admissible := (admissible U ic T p).

Lemma match_at_sound start must b e caps :
  match_at start must = Some (b, e, caps) ->
  b = start /\ admissible start must b e /\ length caps = S groups
  /\ caps !! 0 = Some (Some (b, e)).
Proof.
  unfold Re.match_at. intros H.
  apply m_sound in H as (j & caps' & Hm & Hlen & Hk).
  rewrite length_replicate in Hlen.
  destruct (must && Nat.eqb j start) eqn:Hadv; [done|].
  injection Hk as <- <- <-.
  split; [done|]. split; [|split].
  - split; [done|]. intros (-> & _ & ->).
    by rewrite Nat.eqb_refl in Hadv.
  - by rewrite length_insert.
  - apply list_lookup_insert_eq. lia.
Qed.

Lemma match_at_complete start must e :
  admissible start must start e -> is_Some (match_at start must).
Proof.
  intros [Hm Hadv]. unfold Re.match_at.
  eapply m_complete; [exact Hm|]. intros c.
  destruct (must && Nat.eqb e start) eqn:Hb; [|eauto].
  apply andb_true_iff in Hb as [-> Hb%Nat.eqb_eq]. by destruct Hadv.
Qed.

Lemma scan_sound n start must b e caps :
  scan n start must = Some (b, e, caps) ->
  start <= b <= start + n /\ admissible start must b e
  /\ length caps = S groups /\ caps !! 0 = Some (Some (b, e))
  /\ forall b' e', start <= b' < b -> ~ admissible start must b' e'.
Proof.
  revert start must; induction n as [|n IH]; intros start must; simpl.
  - destruct (match_at start must) as [r|] eqn:Hat; [|done].
    intros [= ->]. apply match_at_sound in Hat as (-> & Hadm & Hlen & H0).
    split_and!; try done; try lia; intros b' e' ?; lia.
  - destruct (match_at start must) as [r|] eqn:Hat.
    + intros [= ->]. apply match_at_sound in Hat as (-> & Hadm & Hlen & H0).
      split_and!; try done; try lia; intros b' e' ?; lia.
    + intros H. apply IH in H as (Hb & [Hm _] & Hlen & H0 & Hleft).
      split; [lia|]. split; [|split; [done|split; [done|]]].
      * split; [done|]. intros (_ & -> & _); lia.
      * intros b' e' Hb' Hadm.
        destruct (decide (b' = start)) as [->|Hne].
        -- apply match_at_complete in Hadm. rewrite Hat in Hadm.
           by destruct Hadm.
        -- apply (Hleft b' e'); [lia|]. destruct Hadm as [Hm' _].
           split; [done|]. by intros ([=] & _).
Qed.

Lemma scan_none n start must :
  scan n start must = None ->
  forall b' e', start <= b' <= start + n -> ~ admissible start must b' e'.
Proof.
  revert start must; induction n as [|n IH]; intros start must; simpl.
  - destruct (match_at start must) as [r|] eqn:Hat; [done|].
    intros _ b' e' Hb' Hadm. assert (b' = start) as -> by lia.
    apply match_at_complete in Hadm. rewrite Hat in Hadm. by destruct Hadm.
  - destruct (match_at start must) as [r|] eqn:Hat; [done|].
    intros H b' e' Hb' Hadm.
    destruct (decide (b' = start)) as [->|Hne].
    + apply match_at_complete in Hadm. rewrite Hat in Hadm. by destruct Hadm.
    + apply (IH _ _ H b' e'); [lia|]. destruct Hadm as [Hm' _].
      split; [done|]. by intros ([=] & _).
Qed.

Lemma scan_match_at n start b e caps :
  scan n start false = Some (b, e, caps) ->
  match_at b false = Some (b, e, caps).
Proof.
  revert start; induction n as [|n IH]; intros start; simpl;
    destruct (match_at start false) as [res|] eqn:Hat; try done.
  - intros [= ->].
    by apply match_at_sound in Hat as Hat'; destruct Hat' as [-> _].
  - intros [= ->].
    by apply match_at_sound in Hat as Hat'; destruct Hat' as [-> _].
  - apply IH.
Qed.

(** [search_from] returns the leftmost admissible match. *)
Lemma search_from_sound start must b e caps :
  start <= length T ->
  search_from start must = Some (b, e, caps) ->
  start <= b <= e /\ e <= length T /\ admissible start must b e
  /\ length caps = S groups /\ caps !! 0 = Some (Some (b, e))
  /\ forall b' e', start <= b' < b -> ~ admissible start must b' e'.
Proof.
  intros Hstart H. apply scan_sound in H as (Hb & Hadm & Hlen & H0 & Hleft).
  pose proof (matches_le _ _ _ (proj1 Hadm)).
  pose proof (matches_bounded _ _ _ (proj1 Hadm)).
  split_and!; try done; lia.
Qed.

Lemma search_from_none start must :
  search_from start must = None ->
  forall b' e', start <= b' <= length T -> ~ admissible start must b' e'.
Proof.
  intros H b' e' Hb'. apply (scan_none _ _ _ H). lia.
Qed.

(** The number of rounds of [matches_from] is bounded: every round moves
    the position forward or, after an empty match, forbids the next one
    to be empty at the same place. *)
Lemma matches_from_total fuel pos (must : bool) :
  pos <= length T ->
  2 * (length T - pos) + (if must then 0 else 1) < fuel ->
  is_Some (matches_from fuel pos must).
Proof.
  revert pos must; induction fuel as [|fuel IH]; intros pos must Hpos Hfuel;
    [lia|].
  simpl. destruct (search_from pos must) as [[[b e] caps]|] eqn:Hs; [|eauto].
  apply search_from_sound in Hs as (Hb & He & [_ Hadv] & _); [|done].
  destruct (IH e (Nat.eqb e b)) as [rest ->]; [done| |by eauto].
  destruct (Nat.eqb_spec e b) as [->|Hne].
  - destruct must; [|lia].
    destruct (decide (b = pos)) as [->|Hne]; [|lia]. by destruct Hadv.
  - destruct must; lia.
Qed.

Lemma all_matches_total :
  exists ms, Re.all_matches U ic T p groups = Some ms.
Proof.
  destruct (matches_from_total (2 * length T + 2) 0 false) as [ms Hms];
    [lia|simpl; lia|].
  by exists ms.
Qed.

(** The first element of the list of all matches is the result of the
    search from position 0. *)
Lemma all_matches_head ms :
  Re.all_matches U ic T p groups = Some ms ->
  head ms = search_from 0 false.
Proof.
  unfold Re.all_matches.
  replace (2 * length T + 2) with (S (2 * length T + 1)) by lia.
  simpl. destruct (Re.search_from U ic T p groups 0 false) as [[[b e] caps]|];
    [|by intros [= <-]].
  destruct (Re.matches_from _ _ _ _ _ _ _ _) as [rest|]; [|done].
  by intros [= <-].
Qed.

End MatcherFacts.

(** ** Escaped skills parse as literals *)

Section EscapedPatterns.
Import Re.

Lemma mem_chr_false c l :
  mem_chr c l = false -> Forall (fun k => N.eqb c k = false) l.
Proof.
  induction l as [|k l IH]; simpl; [constructor|].
  intros [Hk Hl]%orb_false_elim. constructor; auto.
Qed.

(** A character that [re.escape] leaves alone is none of the parser's
    special characters. *)
Lemma plain_char_not_special c :
  mem_chr c special_chars = false ->
  Forall (fun a => is_chr a c = false)
    ["\"; "["; "*"; "+"; "?"; "{"; "."; "^"; "$"; "("; ")"; "|"]%char.
Proof.
  intros H%mem_chr_false.
  let l := eval vm_compute in special_chars in change special_chars with l in H.
  split_Forall.
  repeat constructor; is_chr_false.
Qed.

(** An escaped special character denotes itself. *)
Lemma escape_item_special c :
  mem_chr c special_chars = true -> escape_item c = Ok (RChar (SLit c)).
Proof.
  unfold mem_chr.
  let l := eval vm_compute in special_chars in change special_chars with l.
  simpl. rewrite !orb_true_iff.
  intros H.
  repeat match goal with
    | H : _ \/ _ |- _ => destruct H as [H|H]
    end;
    solve [ apply N.eqb_eq in H; subst c; reflexivity | discriminate H ].
Qed.

Lemma parse_loop_escape_char c fuel rest st :
  parse_loop (S fuel) (escape_char c ++ rest) st
  = parse_loop fuel rest (push (RChar (SLit c)) st).
Proof.
  unfold escape_char. destruct (mem_chr c special_chars) eqn:Hc.
  - simpl. rewrite (escape_item_special c Hc). reflexivity.
  - apply plain_char_not_special in Hc.
    split_Forall.
    simpl.
    repeat match goal with
      | H : is_chr _ c = false |- _ => rewrite H; clear H
      end.
    reflexivity.
Qed.

Lemma parse_loop_escape skill fuel rest st :
  parse_loop (length skill + fuel) (escape skill ++ rest) st
  = parse_loop fuel rest
      (PState (rev (literal_items skill) ++ cur st) (stack st) (ngroups st)).
Proof.
  revert st; induction skill as [|c skill IH]; intros st.
  - by destruct st.
  - change (escape (c :: skill)) with (escape_char c ++ escape skill).
    rewrite <- app_assoc. change (length (c :: skill) + fuel)
      with (S (length skill + fuel)).
    rewrite parse_loop_escape_char, IH. simpl.
    by rewrite <- app_assoc.
Qed.

Lemma length_escape skill : length skill <= length (escape skill).
Proof.
  induction skill as [|c skill IH]; [done|].
  change (escape (c :: skill)) with (escape_char c ++ escape skill).
  rewrite length_app. unfold escape_char.
  destruct (mem_chr c special_chars); simpl; lia.
Qed.

Lemma case_free_literal_items skill :
  case_free (seq_of (literal_items skill)) = true.
Proof. induction skill; simpl; auto. Qed.

Lemma parse_word_pattern skill :
  parse (word_pattern skill) = Ok (word_re skill, 0).
Proof.
  unfold parse, word_pattern.
  change (str "\b") with [cp "\"; cp "b"].
  pose proof (length_escape skill) as Hlen.
  remember (length (escape skill) - length skill) as extra.
  replace (S (length ([cp "\"; cp "b"] ++ escape skill ++ [cp "\"; cp "b"])))
    with (S (length skill + S (S (2 + extra))))
    by (rewrite !length_app; simpl; lia).
  change (parse_loop (S ?f) ([cp "\"; cp "b"] ++ ?r) ?st)
    with (parse_loop f r (push (RAt AtBoundary) st)).
  rewrite parse_loop_escape. simpl.
  unfold word_re. simpl. by rewrite rev_app_distr, rev_involutive.
Qed.

Lemma compile_word_pattern skill :
  compile true (word_pattern skill) = Ok (Pattern (word_re skill) 0 true).
Proof.
  unfold compile. rewrite parse_word_pattern. simpl.
  unfold word_re. simpl.
  assert (case_free (seq_of (literal_items skill ++ [RAt AtBoundary])) = true)
    as ->; [|done].
  induction skill; simpl; auto.
Qed.

Lemma escape_head skill rest :
  exists d rest', escape skill ++ cp ")" :: rest = d :: rest'
                  /\ is_chr "?" d = false.
Proof.
  destruct skill as [|c skill]; [by eexists _, _|].
  change (escape (c :: skill)) with (escape_char c ++ escape skill).
  unfold escape_char. destruct (mem_chr c special_chars) eqn:Hc.
  - by eexists _, _.
  - exists c; eexists. split; [reflexivity|].
    apply plain_char_not_special in Hc.
    split_Forall.
    assumption.
Qed.

Lemma parse_highlight_pattern skill :
  parse (highlight_pattern skill) = Ok (highlight_re skill, 1).
Proof.
  unfold parse, highlight_pattern.
  change (str "\b(") with [cp "\"; cp "b"; cp "("].
  change (str ")\b") with [cp ")"; cp "\"; cp "b"].
  pose proof (length_escape skill) as Hlen.
  remember (length (escape skill) - length skill) as extra.
  replace (S (length ([cp "\"; cp "b"; cp "("] ++ escape skill
                      ++ [cp ")"; cp "\"; cp "b"])))
    with (S (S (length skill + S (S (S (2 + extra))))))
    by (rewrite !length_app; simpl; lia).
  change (parse_loop (S ?f) ([cp "\"; cp "b"; cp "("] ++ ?r) ?st)
    with (parse_loop f (cp "(" :: r) (push (RAt AtBoundary) st)).
  destruct (escape_head skill [cp "\"; cp "b"]) as (d & rest' & Hd & Hq).
  change (parse_loop (S ?f) (cp "(" :: ?r) ?st)
    with (match r with
          | d :: _ =>
            if is_chr "?" d then Unsupported
            else parse_loop f r
                   (PState [] ((S (ngroups st), cur st) :: stack st)
                           (S (ngroups st)))
          | [] => ReError MissingParenthesis
          end).
  rewrite Hd, Hq, <- Hd.
  rewrite parse_loop_escape. simpl.
  unfold highlight_re. simpl. by rewrite app_nil_r, rev_involutive.
Qed.

Lemma compile_highlight_pattern skill :
  compile true (highlight_pattern skill)
  = Ok (Pattern (highlight_re skill) 1 true).
Proof.
  unfold compile. rewrite parse_highlight_pattern. simpl.
  by rewrite case_free_literal_items.
Qed.

End EscapedPatterns.

(** ** Skills found in a resume *)

Section SkillSearch.
Context (U : unidb) (T : pystr).

Local Abbreviation matches := (matches U true T).

Lemma matches_literal_items skill tail i j :
  matches (Re.seq_of (literal_items skill ++ tail)) i j
  <-> literal_at U T skill i = true
      /\ matches (Re.seq_of tail) (i + length skill) j.
Proof.
  revert i; induction skill as [|l skill IH]; intros i; simpl.
  - rewrite Nat.add_0_r. tauto.
  - split.
    + intros (mid & [(c & Hc & Hm) ->] & Hrest).
      apply IH in Hrest as [Hlit Hrest]. rewrite Hc. simpl in Hm.
      rewrite Hm, Hlit. split; [done|].
      by replace (i + S (length skill)) with (S i + length skill) by lia.
    + destruct (T !! i) as [c|] eqn:Hc; [|by intros [? _]].
      intros [[Hm Hlit]%andb_true_iff Hrest].
      exists (S i). split; [split; [by exists c|done]|].
      apply IH. split; [done|].
      by replace (S i + length skill) with (i + S (length skill)) by lia.
Qed.

Lemma matches_word_re skill i j :
  matches (word_re skill) i j
  <-> occurs_at U T skill i = true /\ j = i + length skill.
Proof.
  unfold word_re, occurs_at.
  change (Re.seq_of (?a :: ?l)) with (Re.RSeq a (Re.seq_of l)).
  simpl. split.
  - intros (mid & [Hb ->] & Hrest).
    apply matches_literal_items in Hrest as [Hlit Hrest]. simpl in Hrest.
    destruct Hrest as (mid & [He ->] & ->).
    by rewrite Hb, Hlit, He.
  - intros [[[Hb Hlit]%andb_true_iff He]%andb_true_iff ->].
    exists i. split; [done|]. apply matches_literal_items.
    split; [done|]. simpl. by eexists.
Qed.

Lemma search_word_re skill :
  is_Some (Re.search U (Re.Pattern (word_re skill) 0 true) T)
  <-> has_occurrence U T skill = true.
Proof.
  unfold has_occurrence. rewrite existsb_exists.
  unfold Re.search. cbn [Re.pat_re Re.pat_groups Re.pat_ignorecase]. split.
  - intros [[[b e] caps] Hs].
    apply search_from_sound in Hs as (Hb & He & [Hm _] & _); [|lia].
    apply matches_word_re in Hm as [Hocc _].
    exists b. split; [|done]. apply in_seq. lia.
  - intros (i & Hi%in_seq & Hocc).
    destruct (Re.search_from _ _ _ _ _ _ _) eqn:Hs; [by eexists|].
    exfalso. eapply (search_from_none _ _ _ _ _ _ _ Hs i); [lia|].
    split; [|by intros ([=] & _)].
    apply matches_word_re. eauto.
Qed.

Lemma skill_found_occurrence skill :
  skill_found U T skill = Ok (has_occurrence U T skill).
Proof.
  unfold skill_found. rewrite compile_word_pattern. simpl. f_equal.
  destruct (has_occurrence U T skill) eqn:Hocc.
  - apply bool_decide_eq_true, search_word_re, Hocc.
  - apply bool_decide_eq_false. rewrite search_word_re. congruence.
Qed.

Lemma count_found_occurrences skills :
  count_found U T skills = Ok (occurrence_count U T skills).
Proof.
  unfold occurrence_count.
  induction skills as [|s skills IH]; [done|].
  simpl. rewrite skill_found_occurrence. simpl. rewrite IH. simpl.
  by destruct (has_occurrence U T s).
Qed.

Lemma matched_skills_filter skills :
  matched_skills U T skills = Ok (List.filter (has_occurrence U T) skills).
Proof.
  induction skills as [|s skills IH]; [done|].
  simpl. rewrite skill_found_occurrence. simpl. rewrite IH. simpl.
  by destruct (has_occurrence U T s).
Qed.

End SkillSearch.

(** C1.  For every resume text [T] and skill list [S], [score_resume]
    returns the number of skills of [S] that have a case-insensitive,
    word-boundary-delimited literal occurrence in [T], divided by the
    length of [S] and multiplied by 100 (as floats), and the integer 0
    when [S] is empty. *)
Theorem score_resume_is_share_of_occurring_skills U T S :
  score_resume U T S
  = Ok (match S with
        | [] => PyInt 0
        | _ :: _ => PyFloat (percentage (occurrence_count U T S) (length S))
        end).
Proof.
  unfold score_resume. rewrite count_found_occurrences. by destruct S.
Qed.

(** C2.  The matched skills computed for a resume text [T] and a skill
    list [S] are drawn from [S]: the list is [S] with some elements left
    out, so each of its elements is an element of [S]. *)
Theorem matched_skills_drawn_from_skills U T S :
  exists ms, matched_skills U T S = Ok ms /\ sublist ms S /\ ms ⊆ S.
Proof.
  exists (List.filter (has_occurrence U T) S).
  split; [apply matched_skills_filter|].
  assert (sublist (List.filter (has_occurrence U T) S) S) as Hsub.
  { induction S as [|s S IH]; simpl; [constructor|].
    destruct (has_occurrence U T s); by constructor. }
  split; [done|]. by apply sublist_subseteq.
Qed.

(** ** Contact patterns *)

Lemma compile_email_pattern :
  Re.compile false email_pattern = Ok (Re.Pattern email_re 0 false).
Proof. reflexivity. Qed.

Lemma compile_phone_pattern :
  Re.compile false phone_pattern = Ok (Re.Pattern phone_re 1 false).
Proof. reflexivity. Qed.

(** *** Slices *)

Section Slices.
Context (T : pystr).

Lemma length_slice i j : i <= j <= length T -> length (slice T i j) = j - i.
Proof.
  intros H. unfold slice. rewrite length_take, length_drop. lia.
Qed.

Lemma lookup_slice i j k : k < j - i -> slice T i j !! k = T !! (i + k).
Proof.
  intros H. unfold slice. by rewrite lookup_take_lt, lookup_drop.
Qed.

Lemma slice_split i mid j :
  i <= mid <= j -> slice T i j = slice T i mid ++ slice T mid j.
Proof.
  intros H. unfold slice.
  replace (j - i) with ((mid - i) + (j - mid)) by lia.
  rewrite <- take_take_drop, drop_drop.
  by replace (i + (mid - i)) with mid by lia.
Qed.

Lemma slice_empty i : slice T i i = [].
Proof. unfold slice. by rewrite Nat.sub_diag. Qed.

Lemma slice_singleton i c : T !! i = Some c -> slice T i (S i) = [c].
Proof.
  intros H. apply list_eq. intros [|k].
  - rewrite lookup_slice by lia. by rewrite Nat.add_0_r.
  - simpl. apply lookup_ge_None_2.
    rewrite length_slice; [lia|]. apply lookup_lt_Some in H. lia.
Qed.

(** A slice that reads [w1 ++ w2] splits at [i + length w1]. *)
Lemma slice_app_inv i j w1 w2 :
  i <= j <= length T -> slice T i j = w1 ++ w2 ->
  i + length w1 <= j /\ slice T i (i + length w1) = w1
  /\ slice T (i + length w1) j = w2.
Proof.
  intros Hij Heq.
  assert (length w1 + length w2 = j - i) as Hlen.
  { rewrite <- length_app, <- Heq. by apply length_slice. }
  split; [lia|].
  rewrite (slice_split i (i + length w1) j) in Heq by lia.
  apply app_inj_1 in Heq; [done|].
  rewrite length_slice; lia.
Qed.
End Slices.

(** *** Position semantics and word semantics agree *)

Section MatchesLang.
Context (U : unidb) (T : pystr).

Lemma accepts_single_ok s p c :
  T !! p = Some c -> accepts U false T s p <-> single_ok U s c.
Proof.
  intros Hc. unfold accepts, single_ok. split.
  - intros (c' & Hc' & Hm). congruence.
  - intros Hm. by exists c.
Qed.

Lemma accepts_slice s i j :
  i <= j <= length T ->
  (forall p, i <= p < j -> accepts U false T s p)
  <-> Forall (single_ok U s) (slice T i j).
Proof.
  intros Hij. rewrite Forall_lookup. split.
  - intros Hall k c Hk.
    assert (k < j - i) as Hlt.
    { apply lookup_lt_Some in Hk. rewrite length_slice in Hk; lia. }
    rewrite lookup_slice in Hk by done.
    apply (accepts_single_ok s (i + k) c Hk). apply Hall. lia.
  - intros Hall p Hp.
    destruct (lookup_lt_is_Some_2 T p) as [c Hc]; [lia|].
    apply (accepts_single_ok s p c Hc).
    apply (Hall (p - i)). rewrite lookup_slice by lia.
    by replace (i + (p - i)) with p by lia.
Qed.

Lemma matches_lang r i j :
  anchor_free r = true -> i <= length T ->
  matches U false T r i j
  <-> i <= j <= length T /\ lang U r (slice T i j).
Proof.
  revert i j; induction r as [|s|a|lo hi s|n r IH|a IHa b IHb];
    intros i j Hfree Hi; simpl in *.
  - split.
    + intros ->. split; [lia|]. apply slice_empty.
    + intros [Hij Hnil]. apply (f_equal length) in Hnil.
      rewrite length_slice in Hnil by done. simpl in Hnil. lia.
  - split.
    + intros [(c & Hc & Hm) ->]. pose proof (lookup_lt_Some _ _ _ Hc).
      split; [lia|]. exists c. by rewrite (slice_singleton T i c).
    + intros [Hij (c & Hw & Hm)].
      assert (j = S i) as ->.
      { apply (f_equal length) in Hw. rewrite length_slice in Hw by done.
        simpl in Hw. lia. }
      split; [|done]. exists c. split; [|done].
      rewrite <- (Nat.add_0_r i), <- (lookup_slice T i (S i)) by lia.
      by rewrite Hw.
  - done.
  - split.
    + intros (Hij & Hlo & Hhi & Hall).
      assert (j <= length T) as Hj.
      { destruct (decide (j = i)) as [->|Hne]; [done|].
        specialize (Hall (j - 1)).
        assert (j - 1 < length T); [|lia].
        apply (accepts_lt U false T s). apply Hall. lia. }
      split; [lia|]. rewrite length_slice by lia.
      split; [done|]. split; [done|]. by apply accepts_slice.
    + intros [Hij (Hlo & Hhi & Hall)]. rewrite length_slice in * by done.
      split; [lia|]. split; [done|]. split; [done|]. by apply accepts_slice.
  - by apply IH.
  - apply andb_true_iff in Hfree as [Hfa Hfb]. split.
    + intros (mid & Ha & Hb).
      apply IHa in Ha as [Himid Ha]; [|done|done].
      apply IHb in Hb as [Hmidj Hb]; [|done|lia].
      split; [lia|]. exists (slice T i mid), (slice T mid j).
      split; [|done]. apply slice_split; lia.
    + intros [Hij (w1 & w2 & Hw & Ha & Hb)].
      destruct (slice_app_inv T i j w1 w2 Hij Hw) as (Hmid & Hw1 & Hw2).
      exists (i + length w1). split.
      * apply IHa; [done|done|]. split; [lia|]. by rewrite Hw1.
      * apply IHb; [done|lia|]. split; [lia|]. by rewrite Hw2.
Qed.
End MatchesLang.

(** *** The contact patterns accept the addresses and numbers of the
    specification *)

Lemma Forall_single_ok U s (f : char -> bool) w :
  (forall c, Re.single_match U false s c = f c) ->
  Forall (single_ok U s) w <-> Forall (fun c => f c = true) w.
Proof.
  intros Hf. apply Forall_iff. intros c. unfold single_ok. by rewrite Hf.
Qed.

Lemma lang_email_re U w : lang U email_re w <-> is_email w.
Proof.
  unfold email_re, is_email. simpl. split.
  - intros (loc & w2 & -> & (Hloc & _ & Hlocs)
            & at_ & w4 & -> & (c1 & -> & Hat%N.eqb_eq)
            & dom & w6 & -> & (Hdom & _ & Hdoms)
            & dot & w8 & -> & (c2 & -> & Hdot%N.eqb_eq)
            & tld & w10 & -> & (Htld & _ & Htlds) & ->).
    subst c1 c2. exists loc, dom, tld. rewrite app_nil_r.
    split_and!; try done.
    + intros ->. simpl in Hloc. lia.
    + revert Hlocs. apply Forall_single_ok. intros c.
      unfold local_char, is_ascii_letter, is_ascii_digit, mem_chr, in_range.
      simpl. by rewrite !orb_false_r, !orb_assoc.
    + intros ->. simpl in Hdom. lia.
    + revert Hdoms. apply Forall_single_ok. intros c.
      unfold domain_char, is_ascii_letter, is_ascii_digit, mem_chr, in_range.
      simpl. by rewrite !orb_false_r, !orb_assoc.
    + revert Htlds. apply Forall_single_ok. intros c.
      unfold is_ascii_letter, in_range. simpl. by rewrite !orb_false_r.
  - intros (loc & dom & tld & -> & Hloc & Hlocs & Hdom & Hdoms & Htld & Htlds).
    exists loc; eexists. split; [reflexivity|]. split.
    { split_and!; [destruct loc; [done|simpl; lia]|done|].
      revert Hlocs. apply Forall_single_ok. intros c.
      unfold local_char, is_ascii_letter, is_ascii_digit, mem_chr, in_range.
      simpl. by rewrite !orb_false_r, !orb_assoc. }
    exists (str "@"); eexists. split; [reflexivity|]. split.
    { by exists (cp "@"). }
    exists dom; eexists. split; [reflexivity|]. split.
    { split_and!; [destruct dom; [done|simpl; lia]|done|].
      revert Hdoms. apply Forall_single_ok. intros c.
      unfold domain_char, is_ascii_letter, is_ascii_digit, mem_chr, in_range.
      simpl. by rewrite !orb_false_r, !orb_assoc. }
    exists (str "."); eexists. split; [reflexivity|]. split.
    { by exists (cp "."). }
    exists tld, []. split; [by rewrite app_nil_r|]. split; [|done].
    split_and!; [done|done|].
    revert Htlds. apply Forall_single_ok. intros c.
    unfold is_ascii_letter, in_range. simpl. by rewrite !orb_false_r.
Qed.

Lemma lang_phone_re U w : lang U phone_re w <-> is_phone U w.
Proof.
  unfold phone_re, phone_body_re, is_phone. simpl. split.
  - intros (w1 & w2 & -> & (plus & w3 & -> & (_ & Hplus & Hpluses)
            & first & w4 & -> & (c1 & -> & Hfirst)
            & middle & w5 & -> & (Hmid & _ & Hmids)
            & last & w6 & -> & (c2 & -> & Hlast) & ->) & ->).
    exists plus, c1, middle, c2. rewrite !app_nil_r.
    unfold single_ok in Hfirst, Hlast. simpl in Hfirst, Hlast.
    rewrite orb_false_r in Hfirst, Hlast.
    split_and!; try done.
    + specialize (Hplus 1 eq_refl).
      destruct plus as [|c [|c' plus]]; [by left| |simpl in Hplus; lia].
      right. apply Forall_cons in Hpluses as [Hc%N.eqb_eq _]. by subst c.
    + revert Hmids. apply Forall_single_ok. intros c.
      unfold phone_char, is_chr. simpl. by rewrite orb_false_r, orb_assoc.
  - intros (plus & first & middle & last & -> & Hplus & Hfirst & Hlast
            & Hmid & Hmids).
    eexists; exists []. split; [by rewrite app_nil_r|]. split; [|done].
    exists plus; eexists. split; [reflexivity|]. split.
    { split_and!; [lia| |].
      - intros h [= <-]. destruct Hplus as [->| ->]; simpl; lia.
      - destruct Hplus as [->| ->]; [constructor|].
        constructor; [|constructor]. apply N.eqb_refl. }
    exists [first]; eexists. split; [reflexivity|]. split.
    { exists first. split; [done|]. unfold single_ok. simpl.
      by rewrite Hfirst. }
    exists middle; eexists. split; [reflexivity|]. split.
    { split_and!; [done|done|].
      revert Hmids. apply Forall_single_ok. intros c.
      unfold phone_char, is_chr. simpl. by rewrite orb_false_r, orb_assoc. }
    exists [last], []. split; [done|]. split; [|done].
    exists last. split; [done|]. unfold single_ok. simpl. by rewrite Hlast.
Qed.

(** *** The first element of [re.findall] *)

Section FirstMatch.
Context (U : unidb) (T : pystr) (r : Re.regex) (groups : nat).
Context (P : pystr -> Prop).
Hypothesis r_free : anchor_free r = true.
Hypothesis r_lang : forall w, lang U r w <-> P w.

Lemma matches_substring i j :
  i <= length T ->
  matches U false T r i j <-> i <= j <= length T /\ P (slice T i j).
Proof. intros Hi. rewrite matches_lang by done. by rewrite r_lang. Qed.

(** The search from position 0 finds the leftmost substring the pattern
    accepts, or fails when there is none. *)
Lemma search_leftmost :
  match Re.search_from U false T r groups 0 false with
  | Some (b, e, caps) =>
    leftmost_substring P T (slice T b e) /\ b <= e <= length T
    /\ Re.match_at U false T r groups b false = Some (b, e, caps)
  | None => no_substring P T
  end.
Proof.
  destruct (Re.search_from U false T r groups 0 false) as [[[b e] caps]|] eqn:Hs.
  - pose proof Hs as Hs'.
    apply search_from_sound in Hs as (Hb & He & [Hm _] & _ & _ & Hleft);
      [|lia].
    apply matches_substring in Hm as [Hbe HP]; [|lia].
    split; [|split; [done|]].
    + exists b, e. split_and!; try done; try lia.
      intros i' j' Hij' HP'. destruct (decide (b <= i')) as [|Hlt]; [done|].
      exfalso. apply (Hleft i' j'); [lia|].
      split; [|by intros ([=] & _)].
      apply matches_substring; [lia|done].
    + by eapply scan_match_at.
  - intros i j Hij HP.
    eapply (search_from_none _ _ _ _ _ _ _ Hs i j); [lia|].
    split; [|by intros ([=] & _)].
    apply matches_substring; [lia|done].
Qed.
End FirstMatch.

Lemma match_at_group_1 U ic T body b must e caps :
  Re.match_at U ic T (Re.seq_of [Re.RGroup 1 body]) 1 b must = Some (b, e, caps) ->
  caps !! 1 = Some (Some (b, e)).
Proof.
  unfold Re.match_at. simpl. intros H.
  apply m_sound in H as (j & caps' & _ & Hlen & Hk). simpl in Hlen.
  destruct (must && Nat.eqb j b); [done|]. injection Hk as <- <-.
  rewrite list_lookup_insert_ne by done.
  apply list_lookup_insert_eq. lia.
Qed.

(** C7.  For every text, [extract_email] returns the leftmost substring
    that is an email address (a local part of permitted characters, an at
    sign, a domain, a dot and a top-level segment of two or more letters),
    or the sentinel [Not found] when no substring of the text is one. *)
Theorem extract_email_first_or_not_found U T :
  exists r, extract_email U T = Ok r
    /\ (leftmost_substring is_email T r
        \/ (no_substring is_email T /\ r = not_found)).
Proof.
  unfold extract_email. rewrite compile_email_pattern. simpl.
  unfold Re.findall. simpl.
  destruct (all_matches_total U false T email_re 0) as [ms Hms].
  rewrite Hms. simpl.
  pose proof (all_matches_head _ _ _ _ _ _ Hms) as Hhead.
  pose proof (search_leftmost U T email_re 0 is_email eq_refl (lang_email_re U))
    as Hsearch.
  rewrite <- Hhead in Hsearch.
  destruct ms as [|[[b e] caps] ms]; simpl in *.
  - exists not_found. split; [done|]. by right.
  - exists (slice T b e). split; [done|]. left. apply Hsearch.
Qed.

(** C8.  For every text, [extract_phone] returns the leftmost substring
    that is phone-like (an optional plus sign, then at least nine digits,
    spaces and hyphens of which the first and the last are digits), or the
    sentinel [Not found] when the text has no such run of digits. *)
Theorem extract_phone_first_or_not_found U T :
  exists r, extract_phone U T = Ok r
    /\ (leftmost_substring (is_phone U) T r
        \/ (no_substring (is_phone U) T /\ r = not_found)).
Proof.
  unfold extract_phone. rewrite compile_phone_pattern. simpl.
  unfold Re.findall. simpl.
  destruct (all_matches_total U false T phone_re 1) as [ms Hms].
  rewrite Hms. simpl.
  pose proof (all_matches_head _ _ _ _ _ _ Hms) as Hhead.
  pose proof (search_leftmost U T phone_re 1 (is_phone U) eq_refl
                (lang_phone_re U)) as Hsearch.
  rewrite <- Hhead in Hsearch.
  destruct ms as [|[[b e] caps] ms]; simpl in *.
  - exists not_found. split; [done|]. by right.
  - destruct Hsearch as (Hleft & Hbe & Hat).
    apply match_at_group_1 in Hat.
    exists (slice T b e). split; [|by left].
    unfold Re.group_text. by rewrite Hat.
Qed.

(** ** Binary64 arithmetic of the score

    Facts about the rounding of [SpecFloat], proved on its integer
    significands: a right shift is a division by a power of two, rounding
    to nearest adds at most one unit, and so a result never crosses a
    float of the format. *)

Section FloatFacts.
Local Open Scope Z_scope.

Lemma digits2_pos_bounds p :
  2 ^ (Zpos (digits2_pos p) - 1) <= Zpos p < 2 ^ Zpos (digits2_pos p).
Proof.
  induction p as [p IH|p IH|]; simpl digits2_pos; [| |simpl; lia].
  - rewrite Pos2Z.inj_succ.
    replace (Z.succ (Zpos (digits2_pos p)) - 1) with (Z.succ (Zpos (digits2_pos p) - 1)) by lia.
    rewrite !Z.pow_succ_r by lia. lia.
  - rewrite Pos2Z.inj_succ.
    replace (Z.succ (Zpos (digits2_pos p)) - 1) with (Z.succ (Zpos (digits2_pos p) - 1)) by lia.
    rewrite !Z.pow_succ_r by lia. lia.
Qed.

(** A number below [2 ^ n] has at most [n] binary digits. *)
Lemma Zdigits2_le M n : 0 <= M -> 0 <= n -> M < 2 ^ n -> Zdigits2 M <= n.
Proof.
  intros HM Hn Hlt. destruct M as [|p|p]; simpl; [lia| |lia].
  destruct (digits2_pos_bounds p) as [Hlo _].
  destruct (Z_le_gt_dec (Zpos (digits2_pos p)) n) as [|Hgt]; [done|].
  assert (2 ^ n <= 2 ^ (Zpos (digits2_pos p) - 1)); [|lia].
  apply Z.pow_le_mono_r; lia.
Qed.

Lemma shr_1_spec mrs :
  0 <= shr_m mrs ->
  shr_m (shr_1 mrs) = shr_m mrs / 2
  /\ (shr_r mrs = false -> shr_s mrs = false -> shr_m mrs mod 2 = 0 ->
      shr_r (shr_1 mrs) = false /\ shr_s (shr_1 mrs) = false).
Proof.
  destruct mrs as [m r s]. simpl. intros Hm.
  destruct m as [|[p|p|]|p]; simpl; [| | | |lia].
  - split; [done|]. by intros -> ->.
  - split; [|intros _ _ H; rewrite Pos2Z.inj_xI in H].
    + rewrite Pos2Z.inj_xI. apply Z.div_unique with 1; lia.
    + exfalso. revert H. rewrite Z.add_comm, Z.mul_comm, Z.mod_add by lia.
      by compute.
  - split; [|by intros -> ->]. rewrite Pos2Z.inj_xO.
    apply Z.div_unique with 0; lia.
  - split; [done|]. intros _ _ H. by compute in H.
Qed.

Lemma iter_pos_nat {A} (f : A -> A) p x :
  SpecFloat.iter_pos f p x = Nat.iter (Pos.to_nat p) f x.
Proof.
  revert x; induction p as [p IH|p IH|]; intros x;
    cbn [SpecFloat.iter_pos]; [| |done].
  - rewrite !IH, Pos2Nat.inj_xI.
    replace (S (2 * Pos.to_nat p)) with (Pos.to_nat p + S (Pos.to_nat p))%nat
      by lia.
    by rewrite Nat.iter_add, Nat.iter_succ_r.
  - rewrite !IH, Pos2Nat.inj_xO.
    replace (2 * Pos.to_nat p)%nat with (Pos.to_nat p + Pos.to_nat p)%nat
      by lia.
    by rewrite Nat.iter_add.
Qed.

Lemma shr_iter_spec n mrs :
  0 <= shr_m mrs ->
  let mrs' := Nat.iter n shr_1 mrs in
  shr_m mrs' = shr_m mrs / 2 ^ Z.of_nat n
  /\ (shr_r mrs = false -> shr_s mrs = false ->
      shr_m mrs mod 2 ^ Z.of_nat n = 0 ->
      shr_r mrs' = false /\ shr_s mrs' = false).
Proof.
  intros Hm. induction n as [|n [IHm IHx]].
  - simpl. rewrite Z.div_1_r. auto.
  - cbn zeta in *. rewrite Nat2Z.inj_succ, Z.pow_succ_r by lia.
    simpl Nat.iter.
    assert (0 <= shr_m (Nat.iter n shr_1 mrs)) as Hpos.
    { rewrite IHm. apply Z.div_pos; lia. }
    destruct (shr_1_spec _ Hpos) as [H1m H1x].
    split.
    + rewrite H1m, IHm, Z.div_div by lia. f_equal. lia.
    + intros Hr Hs Hmod.
      assert (shr_m mrs mod 2 ^ Z.of_nat n = 0) as Hmod'.
      { apply Z.mod_divide in Hmod; [|lia]. apply Z.mod_divide; [lia|].
        destruct Hmod as [q Hq]. exists (q * 2). lia. }
      destruct (IHx Hr Hs Hmod') as [Hr' Hs'].
      apply H1x; [done|done|].
      rewrite IHm.
      apply Z.mod_divide in Hmod; [|lia]. destruct Hmod as [q Hq].
      rewrite Hq. replace (q * (2 * 2 ^ Z.of_nat n)) with (q * 2 * 2 ^ Z.of_nat n) by lia.
      rewrite Z.div_mul by lia. apply Z.mod_mul. lia.
Qed.

Lemma shr_m_of_loc M loc : shr_m (shr_record_of_loc M loc) = M.
Proof. by destruct loc as [|[]]. Qed.

(** The shift of [shr_fexp]: by [k] bits, to the exponent of the format. *)
Lemma shr_fexp_spec M E loc :
  0 <= M ->
  exists k mrs,
    shr_fexp 53 1024 M E loc = (mrs, E + k) /\ 0 <= k
    /\ E + k = Z.max E (fexp 53 1024 (Zdigits2 M + E))
    /\ shr_m mrs = M / 2 ^ k
    /\ (loc = loc_Exact -> M mod 2 ^ k = 0 ->
        loc_of_shr_record mrs = loc_Exact).
Proof.
  intros HM. unfold shr_fexp, shr.
  destruct (fexp 53 1024 (Zdigits2 M + E) - E) as [|p|p] eqn:Hn.
  - exists 0, (shr_record_of_loc M loc). rewrite Z.add_0_r.
    split_and!; [done|lia|lia| |by intros -> _].
    by rewrite shr_m_of_loc, Z.div_1_r.
  - exists (Zpos p), (SpecFloat.iter_pos shr_1 p (shr_record_of_loc M loc)).
    split_and!; [done|lia|lia| |].
    + rewrite iter_pos_nat.
      destruct (shr_iter_spec (Pos.to_nat p) (shr_record_of_loc M loc))
        as [Hm _]; [by rewrite shr_m_of_loc|].
      by rewrite Hm, shr_m_of_loc, positive_nat_Z.
    + intros -> Hmod. rewrite iter_pos_nat.
      destruct (shr_iter_spec (Pos.to_nat p) (shr_record_of_loc M loc_Exact))
        as [_ Hx]; [done|].
      rewrite positive_nat_Z in Hx. destruct (Hx eq_refl eq_refl Hmod) as [Hr Hs].
      destruct (Nat.iter _ _ _) as [m r s]. simpl in *. by subst.
  - exists 0, (shr_record_of_loc M loc). rewrite Z.add_0_r.
    split_and!; [done|lia|lia| |by intros -> _].
    by rewrite shr_m_of_loc, Z.div_1_r.
Qed.

Lemma round_nearest_even_bounds m l :
  m <= round_nearest_even m l <= m + 1
  /\ (l = loc_Exact -> round_nearest_even m l = m).
Proof.
  destruct l as [|[]]; simpl; try destruct (Z.even m); split; try done; lia.
Qed.

Lemma fexp_le_bound M E (mb : positive) eb :
  0 <= M -> E <= eb -> -1074 <= eb -> Zpos mb < 2 ^ 53 ->
  M <= Zpos mb * 2 ^ (eb - E) ->
  fexp 53 1024 (Zdigits2 M + E) <= eb.
Proof.
  intros HM HE Heb Hmb Hle. unfold fexp, emin.
  assert (Zdigits2 M <= 53 + (eb - E)); [|lia].
  apply Zdigits2_le; [done|lia|].
  rewrite Z.pow_add_r by lia.
  assert (0 < 2 ^ (eb - E)) by (apply Z.pow_pos_nonneg; lia).
  nia.
Qed.

(** Rounding does not cross a float of the format: what lies at or below
    [mb * 2 ^ eb] is rounded to a float at or below it. *)
Lemma binary_round_aux_below M E loc (mb : positive) eb :
  0 <= M -> E <= eb -> -1074 <= eb <= 971 -> Zpos mb < 2 ^ 53 ->
  M <= Zpos mb * 2 ^ (eb - E) ->
  (loc <> loc_Exact -> M < Zpos mb * 2 ^ (eb - E)) ->
  below (binary_round_aux 53 1024 false M E loc) mb eb.
Proof.
  intros HM HE Heb Hmb Hle Hlt. unfold binary_round_aux.
  destruct (shr_fexp_spec M E loc HM) as (k & mrs & -> & Hk & He1 & Hm1 & Hx1).
  set (e1 := E + k) in *.
  set (m2 := round_nearest_even (shr_m mrs) (loc_of_shr_record mrs)).
  pose proof (fexp_le_bound M E mb eb HM HE (proj1 Heb) Hmb Hle) as Hf1.
  assert (e1 <= eb) as He1b by lia.
  assert (0 < 2 ^ k) as Hpk by (apply Z.pow_pos_nonneg; lia).
  assert (0 <= shr_m mrs) as Hm1pos.
  { rewrite Hm1. apply Z.div_pos; lia. }
  assert (Zpos mb * 2 ^ (eb - E) = Zpos mb * 2 ^ (eb - e1) * 2 ^ k) as Hsplit.
  { rewrite <- Z.mul_assoc, <- Z.pow_add_r by lia. do 2 f_equal. lia. }
  assert (0 <= m2 <= Zpos mb * 2 ^ (eb - e1)) as Hm2.
  { destruct (round_nearest_even_bounds (shr_m mrs) (loc_of_shr_record mrs))
      as [Hb Hexact]. fold m2 in Hb, Hexact. split; [lia|].
    assert (M < Zpos mb * 2 ^ (eb - e1) * 2 ^ k -> m2 <= Zpos mb * 2 ^ (eb - e1))
      as Hstrict.
    { intros Hs. assert (shr_m mrs < Zpos mb * 2 ^ (eb - e1)); [|lia].
      rewrite Hm1. apply Z.div_lt_upper_bound; [done|]. lia. }
    destruct loc as [|c]; [|apply Hstrict; rewrite <- Hsplit; auto].
    destruct (decide (M mod 2 ^ k = 0)) as [Hmod|Hmod].
    - rewrite Hexact by auto. rewrite Hm1.
      apply Z.div_le_upper_bound; [done|]. lia.
    - apply Hstrict.
      assert (M <> Zpos mb * 2 ^ (eb - e1) * 2 ^ k); [|lia].
      intros Heq. apply Hmod. rewrite Heq. apply Z.mod_mul. lia. }
  destruct (shr_fexp_spec m2 e1 loc_Exact (proj1 Hm2))
    as (k2 & mrs2 & -> & Hk2 & He2 & Hm3 & _).
  set (e2 := e1 + k2) in *.
  pose proof (fexp_le_bound m2 e1 mb eb (proj1 Hm2) He1b (proj1 Heb) Hmb
                (proj2 Hm2)) as Hf2.
  assert (e2 <= eb) as He2b by lia.
  assert (0 < 2 ^ k2) as Hpk2 by (apply Z.pow_pos_nonneg; lia).
  assert (0 <= shr_m mrs2 <= Zpos mb * 2 ^ (eb - e2)) as Hm3b.
  { rewrite Hm3. split; [apply Z.div_pos; lia|].
    apply Z.div_le_upper_bound; [done|].
    replace (2 ^ k2 * (Zpos mb * 2 ^ (eb - e2)))
      with (Zpos mb * 2 ^ (eb - e1)); [lia|].
    rewrite (Z.mul_comm (2 ^ k2)), <- Z.mul_assoc, <- Z.pow_add_r by lia.
    do 2 f_equal. lia. }
  destruct (shr_m mrs2) as [|m3|m3]; simpl; [done| |lia].
  destruct (Z.leb_spec e2 (1024 - 53)); [|exfalso; lia]. simpl. lia.
Qed.

Lemma below_leb f (mb : positive) eb :
  below f mb eb ->
  float_leb (S754_zero false) f = true
  /\ float_leb f (S754_finite false mb eb) = true.
Proof.
  destruct f as [[]| | |[] m e]; simpl; try done.
  intros [He Hm]. split; [done|].
  unfold float_leb, SFleb, SFcompare.
  destruct (Z.compare_spec e eb) as [->|Hlt|Hgt]; [|done|lia].
  rewrite Z.sub_diag, Z.mul_1_r in Hm.
  change (Pos.compare_cont Eq m mb) with (Pos.compare m mb).
  destruct (Pos.compare_spec m mb); [done|done|lia].
Qed.

Lemma new_location_exact n : new_location n 0 = loc_Exact.
Proof. unfold new_location. by destruct (Z.even n). Qed.

Lemma new_location_inexact n r : new_location n r <> loc_Exact -> r <> 0.
Proof. intros H ->. by rewrite new_location_exact in H. Qed.

Lemma div_eucl_div_mod a b : Z.div_eucl a b = (a / b, a mod b).
Proof. unfold Z.div, Z.modulo. by destruct (Z.div_eucl a b). Qed.

(** The quotient of two naturals, the first not above the second, is a
    float between 0 and 1. *)
Lemma int_true_divide_below (m n : positive) :
  (m <= n)%positive ->
  below (int_true_divide (Zpos m) (Zpos n)) (2 ^ 52) (-52).
Proof.
  intros Hmn. unfold int_true_divide, exact_int, SFdiv, SFdiv_core_binary.
  set (d := Zdigits2 (Zpos m) + 0 - (Zdigits2 (Zpos n) + 0)).
  assert (d <= 0) as Hd.
  { subst d. assert (Zdigits2 (Zpos m) <= Zdigits2 (Zpos n)); [|lia].
    apply Zdigits2_le; [lia|simpl; lia|].
    pose proof (digits2_pos_bounds n). simpl. lia. }
  assert (fexp 53 1024 d <= -53) as Hf by (unfold fexp, emin; lia).
  rewrite Z.min_l by lia.
  set (e := fexp 53 1024 d) in *.
  destruct (0 - 0 - e) as [|s|s] eqn:Hs; [lia| |lia].
  rewrite div_eucl_div_mod, Z.shiftl_mul_pow2 by lia. simpl xorb.
  assert (0 < 2 ^ Zpos s) as Hps by (apply Z.pow_pos_nonneg; lia).
  assert (Zpos (2 ^ 52) * 2 ^ (-52 - e) = 2 ^ Zpos s) as Hone.
  { change (Zpos (2 ^ 52)) with (2 ^ 52). rewrite <- Z.pow_add_r by lia.
    f_equal. lia. }
  pose proof (Z.div_mod (Zpos m * 2 ^ Zpos s) (Zpos n) ltac:(lia)) as Hdm.
  pose proof (Z.mod_pos_bound (Zpos m * 2 ^ Zpos s) (Zpos n) ltac:(lia)) as Hr.
  assert (0 <= Zpos m * 2 ^ Zpos s / Zpos n) as Hq by (apply Z.div_pos; lia).
  apply binary_round_aux_below;
    [done|clear -Hf; lia|lia|done| |].
  - rewrite Hone. apply Z.div_le_upper_bound; [lia|]. nia.
  - intros Hr0%new_location_inexact. rewrite Hone.
    apply Z.div_lt_upper_bound; [lia|].
    destruct (decide (m = n)) as [->|Hne]; [|nia].
    destruct Hr0. rewrite Z.mul_comm. apply Z.mod_mul. lia.
Qed.

Lemma float_100_eq : float_100 = S754_finite false 7036874417766400 (-46).
Proof. reflexivity. Qed.

(** A float between 0 and 1 times 100 is a float between 0 and 100. *)
Lemma float_mul_100_below f :
  below f (2 ^ 52) (-52) -> below (float_mul f float_100) 7036874417766400 (-46).
Proof.
  rewrite float_100_eq.
  destruct f as [[]| | |[] m e]; simpl; try done.
  intros [He Hm]. 
  apply binary_round_aux_below; [lia|lia|lia|done| |done].
  rewrite Pos2Z.inj_mul.
  replace (-46 - (e + -46)) with (-52 - e + 52) by lia.
  rewrite Z.pow_add_r by lia.
  change (Zpos (2 ^ 52)) with (2 ^ 52) in Hm. nia.
Qed.

(** The percentage of a part in a whole lies between 0 and 100. *)
Lemma percentage_bounds (m n : nat) :
  (m <= n)%nat -> (0 < n)%nat ->
  float_leb (S754_zero false) (percentage m n) = true
  /\ float_leb (percentage m n) float_100 = true.
Proof.
  intros Hmn Hn. rewrite float_100_eq at 1. apply below_leb.
  unfold percentage. apply float_mul_100_below.
  destruct n as [|n]; [lia|]. destruct m as [|m]; [done|].
  change (Z.of_nat (S m)) with (Zpos (Pos.of_succ_nat m)).
  change (Z.of_nat (S n)) with (Zpos (Pos.of_succ_nat n)).
  apply int_true_divide_below. lia.
Qed.

(** All of a whole is 100 percent. *)
Lemma percentage_full (n : nat) : (0 < n)%nat -> percentage n n = float_100.
Proof.
  intros Hn. destruct n as [|n]; [lia|].
  unfold percentage, int_true_divide.
  change (Z.of_nat (S n)) with (Zpos (Pos.of_succ_nat n)).
  set (p := Pos.of_succ_nat n).
  assert (SFdiv 53 1024 (exact_int (Zpos p)) (exact_int (Zpos p))
          = S754_finite false (2 ^ 52) (-52)) as ->; [|reflexivity].
  unfold exact_int, SFdiv, SFdiv_core_binary.
  replace (Zdigits2 (Zpos p) + 0 - (Zdigits2 (Zpos p) + 0)) with 0 by lia.
  change (Z.min (fexp 53 1024 0) (0 - 0)) with (-53).
  change (0 - 0 - -53) with 53.
  rewrite div_eucl_div_mod, Z.shiftl_mul_pow2 by lia.
  rewrite (Z.mul_comm (Zpos p)), Z.div_mul, Z.mod_mul by lia.
  by rewrite new_location_exact.
Qed.
End FloatFacts.

(** ** Highlighting *)

Section Highlighting.
Context (U : unidb).

Lemma parse_mark_template : Re.parse_template 1 mark_template = Ok mark_items.
Proof. vm_compute. reflexivity. Qed.

Lemma matches_highlight_re T skill i j :
  matches U true T (highlight_re skill) i j
  <-> occurs_at U T skill i = true /\ j = i + length skill.
Proof.
  unfold highlight_re, occurs_at. simpl. split.
  - intros (mid & [Hb ->] & mid2 & Hlit & mid3 & [He ->] & ->).
    rewrite <- (app_nil_r (literal_items skill)) in Hlit.
    apply matches_literal_items in Hlit as [Hlit ->].
    by rewrite Hb, Hlit, He.
  - intros [[[Hb Hlit]%andb_true_iff He]%andb_true_iff ->].
    exists i. split; [done|]. exists (i + length skill). split.
    + rewrite <- (app_nil_r (literal_items skill)).
      by apply matches_literal_items.
    + by eexists.
Qed.

Lemma sub_highlight T skill :
  exists ms,
    Re.all_matches U true T (highlight_re skill) 1 = Some ms
    /\ Re.sub U (Re.Pattern (highlight_re skill) 1 true) mark_template T
       = Ok (Re.substitute T mark_items 0 ms).
Proof.
  destruct (all_matches_total U true T (highlight_re skill) 1) as [ms Hms].
  exists ms. split; [done|].
  unfold Re.sub. cbn [Re.pat_re Re.pat_groups Re.pat_ignorecase].
  by rewrite parse_mark_template, Hms.
Qed.

Lemma search_highlight_no_occurrence T skill :
  has_occurrence U T skill = false ->
  Re.search_from U true T (highlight_re skill) 1 0 false = None.
Proof.
  intros Hocc.
  destruct (Re.search_from _ _ _ _ _ _ _) as [[[b e] caps]|] eqn:Hs; [|done].
  apply search_from_sound in Hs as (Hb & He & [Hm _] & _); [|lia].
  apply matches_highlight_re in Hm as [Hat _].
  assert (has_occurrence U T skill = true); [|congruence].
  unfold has_occurrence. apply existsb_exists. exists b.
  split; [apply in_seq; lia|done].
Qed.

(** A skill that does not occur leaves the text as it is. *)
Lemma sub_highlight_no_occurrence T skill :
  has_occurrence U T skill = false ->
  Re.sub U (Re.Pattern (highlight_re skill) 1 true) mark_template T = Ok T.
Proof.
  intros Hocc. destruct (sub_highlight T skill) as (ms & Hms & ->).
  apply all_matches_head in Hms.
  rewrite search_highlight_no_occurrence in Hms by done.
  by destruct ms.
Qed.

Lemma highlight_loop_ok skills T :
  exists h, highlight_loop U T skills = Ok h.
Proof.
  revert T; induction skills as [|skill skills IH]; intros T;
    cbn [highlight_loop]; [by eexists|].
  rewrite compile_highlight_pattern. cbn [mbind result_bind].
  destruct (sub_highlight T skill) as (ms & _ & ->). apply IH.
Qed.

Lemma highlight_loop_no_occurrence skills T :
  Forall (fun skill => has_occurrence U T skill = false) skills ->
  highlight_loop U T skills = Ok T.
Proof.
  induction 1 as [|skill skills Hocc _ IH]; cbn [highlight_loop]; [done|].
  rewrite compile_highlight_pattern. cbn [mbind result_bind].
  by rewrite sub_highlight_no_occurrence.
Qed.

Lemma insert_by_len_perm s l : insert_by_len s l ≡ₚ s :: l.
Proof.
  induction l as [|x l IH]; simpl; [done|].
  destruct (Nat.ltb (length s) (length x)); [|done].
  rewrite IH. apply Permutation_swap.
Qed.

Lemma sorted_by_len_desc_perm skills : sorted_by_len_desc skills ≡ₚ skills.
Proof.
  induction skills as [|s skills IH]; simpl; [done|].
  by rewrite insert_by_len_perm, IH.
Qed.
End Highlighting.

(** C4.  Whatever characters a skill contains, its two patterns compile,
    and to the skill's own characters as literals between word-boundary
    anchors: both match exactly the spans where the skill occurs.  So
    [score_resume] and [highlight_text] return a value, and raise no
    pattern error, for every text and every list of skills. *)
Theorem escaped_skills_compile_to_literals U T S :
  (forall skill,
      Re.compile true (word_pattern skill)
        = Ok (Re.Pattern (word_re skill) 0 true)
      /\ Re.compile true (highlight_pattern skill)
        = Ok (Re.Pattern (highlight_re skill) 1 true)
      /\ forall i j,
           matches U true T (word_re skill) i j
           <-> matches U true T (highlight_re skill) i j
           /\ occurs_at U T skill i = true /\ j = i + length skill)
  /\ is_ok (score_resume U T S) = true
  /\ is_ok (highlight_text U T S) = true.
Proof.
  split_and!.
  - intros skill.
    split_and!; [apply compile_word_pattern|apply compile_highlight_pattern|].
    intros i j. rewrite matches_word_re, matches_highlight_re. tauto.
  - unfold score_resume. rewrite count_found_occurrences. by destruct S.
  - unfold highlight_text.
    by destruct (highlight_loop_ok U (sorted_by_len_desc S) T) as [h ->].
Qed.

(** ** Scores *)

Lemma filter_all {A} (f : A -> bool) l :
  Forall (fun x => f x = true) l -> List.filter f l = l.
Proof. induction 1 as [|x l Hx _ IH]; simpl; [done|]. by rewrite Hx, IH. Qed.

Lemma length_filter_le {A} (f : A -> bool) l :
  length (List.filter f l) <= length l.
Proof. induction l as [|x l IH]; simpl; [done|]. destruct (f x); simpl; lia. Qed.





(** C6.  For the resume text "Experienced in Python and SQL" and the three
    skills python, sql and project management, in whatever order the set
    lists them, the score is the float 2 / 3 * 100, which lies between
    66.666 and 66.667, and the matched skills are python and sql. *)
Theorem example_python_sql_two_thirds :
  let T := str "Experienced in Python and SQL" in
  Forall (fun S =>
            score_resume basic_latin T S = Ok (PyFloat (percentage 2 3))
            /\ exists ms, matched_skills basic_latin T S = Ok ms
                          /\ ms ≡ₚ [str "python"; str "sql"])
         (permutations [str "python"; str "sql"; str "project management"])
  /\ float_leb (int_true_divide 66666 1000) (percentage 2 3) = true
  /\ float_leb (percentage 2 3) (int_true_divide 66667 1000) = true.
Proof.
  split; [|by vm_compute].
  repeat (apply Forall_cons; split;
          [split; [by vm_compute|];
           eexists; split; [by vm_compute|];
           first [reflexivity|apply Permutation_swap]|]).
  apply Forall_nil. done.
Qed.

(** C9.  With the language model as an oracle for noun chunks and tagged
    tokens, the result of [extract_skills] has no duplicates, and its
    elements are exactly the lower-cased texts of the noun chunks and of
    the tokens tagged PROPN or NOUN that are longer than one character. *)
Theorem extract_skills_lowercase_long_distinct U nlp text :
  NoDup (extract_skills U nlp text)
  /\ forall s, s ∈ extract_skills U nlp text <->
       exists c, s = str_lower U c /\ 1 < length c
         /\ (c ∈ noun_chunks (nlp text)
             \/ exists t, t ∈ doc_tokens (nlp text) /\ tok_text t = c
                  /\ (pos_ t = str "PROPN" \/ pos_ t = str "NOUN")).
Proof.
  unfold extract_skills. split; [apply NoDup_elements|].
  intros s. rewrite elem_of_elements, elem_of_list_to_set, elem_of_app.
  rewrite !list_elem_of_fmap. split.
  - intros [(c & -> & [Hlen Hc]%list_elem_of_filter)
           |(t & -> & [[Hpos Hlen] Ht]%list_elem_of_filter)].
    + exists c. auto.
    + exists (tok_text t). split_and!; [done|done|]. right. by exists t.
  - intros (c & -> & Hlen & [Hc|(t & Ht & <- & Hpos)]).
    + left. exists c. split; [done|]. by apply list_elem_of_filter.
    + right. exists t. split; [done|]. by apply list_elem_of_filter.
Qed.

(** C10.  For a non-empty skill list the score and the matched list agree:
    the score is the length of the matched list divided by the number of
    skills, times 100 (as floats, in the order the program computes it),
    and it lies between 0 and 100.  These are the values the screening
    record holds as Matched_Skills_Count, Total_Skills and, rounded to two
    decimals, Match_Score(%). *)
Theorem score_agrees_with_matched_skills U T S :
  S <> [] ->
  exists ms score,
    matched_skills U T S = Ok ms
    /\ score_resume U T S = Ok (PyFloat score)
    /\ score = percentage (length ms) (length S)
    /\ length ms <= length S
    /\ float_leb (S754_zero false) score = true
    /\ float_leb score float_100 = true.
Proof.
  intros Hne. exists (List.filter (has_occurrence U T) S).
  exists (percentage (occurrence_count U T S) (length S)).
  pose proof (length_filter_le (has_occurrence U T) S) as Hle.
  split_and!.
  - apply matched_skills_filter.
  - unfold score_resume. rewrite count_found_occurrences. by destruct S.
  - done.
  - done.
  - apply percentage_bounds; [done|]. destruct S; [done|simpl; lia].
  - apply percentage_bounds; [done|]. destruct S; [done|simpl; lia].
Qed.

Lemma score_agrees_with_matched_skills_witness :
  exists ms score,
    matched_skills basic_latin (str "Experienced in Python and SQL")
      [str "python"; str "sql"; str "project management"] = Ok ms
    /\ score_resume basic_latin (str "Experienced in Python and SQL")
         [str "python"; str "sql"; str "project management"]
       = Ok (PyFloat score)
    /\ score = percentage (length ms) 3
    /\ length ms <= 3
    /\ float_leb (S754_zero false) score = true
    /\ float_leb score float_100 = true.
Proof.
  apply (score_agrees_with_matched_skills basic_latin
           (str "Experienced in Python and SQL")
           [str "python"; str "sql"; str "project management"]).
  discriminate.
Defined.

(** * Further properties of the program *)

Lemma List_filter_Permutation {A} (f : A -> bool) l l' :
  l ≡ₚ l' -> List.filter f l ≡ₚ List.filter f l'.
Proof.
  induction 1 as [|x l l' _ IH|x y l|l1 l2 l3 _ IH1 _ IH2]; simpl.
  - done.
  - destruct (f x); [by constructor|done].
  - destruct (f x), (f y); try done. apply Permutation_swap.
  - by etrans.
Qed.

(** X1.  The score and the matched skills do not depend on the order of the
    skills: for two lists that are permutations of each other,
    [score_resume] returns the same number, and the matched skills of one
    list are a permutation of those of the other. *)
Theorem score_independent_of_skill_order U T S S' :
  S ≡ₚ S' ->
  score_resume U T S = score_resume U T S'
  /\ exists ms ms', matched_skills U T S = Ok ms
       /\ matched_skills U T S' = Ok ms' /\ ms ≡ₚ ms'.
Proof.
  intros Hperm.
  pose proof (List_filter_Permutation (has_occurrence U T) _ _ Hperm) as Hf.
  split.
  - unfold score_resume. rewrite !count_found_occurrences.
    unfold occurrence_count.
    rewrite (Permutation_length Hf).
    destruct S as [|s S], S' as [|s' S'].
    + done.
    + by apply Permutation_nil_l in Hperm.
    + by apply Permutation_nil_r in Hperm.
    + cbn [mbind result_bind mret result_ret]. do 5 f_equal.
      apply (Permutation_length Hperm).
  - eexists _, _. rewrite !matched_skills_filter. done.
Qed.

Lemma score_independent_of_skill_order_witness :
  score_resume basic_latin (str "Python and SQL") [str "python"; str "java"]
  = score_resume basic_latin (str "Python and SQL") [str "java"; str "python"]
  /\ exists ms ms',
       matched_skills basic_latin (str "Python and SQL")
         [str "python"; str "java"] = Ok ms
       /\ matched_skills basic_latin (str "Python and SQL")
            [str "java"; str "python"] = Ok ms'
       /\ ms ≡ₚ ms'.
Proof. apply score_independent_of_skill_order, Permutation_swap. Defined.

(** ** Highlighting only inserts markers *)

Lemma scan_match_at_any U ic T p groups n start must b e caps :
  Re.scan U ic T p groups n start must = Some (b, e, caps) ->
  exists must', Re.match_at U ic T p groups b must' = Some (b, e, caps).
Proof.
  revert start must; induction n as [|n IH]; intros start must; simpl;
    destruct (Re.match_at U ic T p groups start must) as [res|] eqn:Hat;
    try done.
  - intros [= ->]. exists must.
    by apply match_at_sound in Hat as Hat'; destruct Hat' as [-> _].
  - intros [= ->]. exists must.
    by apply match_at_sound in Hat as Hat'; destruct Hat' as [-> _].
  - apply IH.
Qed.

Lemma match_at_highlight_group U T skill b must e caps :
  Re.match_at U true T (highlight_re skill) 1 b must = Some (b, e, caps) ->
  caps !! 1 = Some (Some (b, e)).
Proof.
  unfold Re.match_at, highlight_re. cbn [Re.seq_of foldr Re.m].
  destruct (Re.at_match U T Re.AtBoundary b); [|done].
  intros H. apply m_sound in H as (j & caps' & _ & Hlen & Hk).
  simpl in Hlen. cbn beta in Hk.
  destruct (Re.at_match U T Re.AtBoundary j); [|done].
  destruct (must && Nat.eqb j b); [done|]. injection Hk as <- <-.
  rewrite list_lookup_insert_ne by done.
  apply list_lookup_insert_eq. lia.
Qed.

Lemma expand_literals T caps cs :
  Re.expand T caps (map Re.TLit cs) = cs.
Proof. induction cs as [|c cs IH]; [done|]. simpl. by rewrite IH. Qed.

Lemma expand_mark_items T caps :
  Re.expand T caps mark_items
  = mark_open ++ Re.group_text T caps 1 ++ mark_close.
Proof.
  change mark_items
    with (map Re.TLit mark_open ++ [Re.TGroup 1] ++ map Re.TLit mark_close).
  pose proof (expand_literals T caps) as Hlit. unfold Re.expand in *.
  rewrite !flat_map_app, !Hlit. simpl. by rewrite app_nil_r.
Qed.

Lemma drop_slice T i j :
  i <= j <= length T -> drop i T = slice T i j ++ drop j T.
Proof.
  intros H. unfold slice.
  rewrite <- (take_drop (j - i) (drop i T)) at 1.
  rewrite drop_drop. by replace (i + (j - i)) with j by lia.
Qed.

Section HighlightSubstitution.
Context (U : unidb) (T skill : pystr).

(** What one [re.sub] of [highlight_text] returns: around every match, and
    nowhere else, the two tags are inserted. *)
Lemma substitute_highlight fuel pos must ms :
  pos <= length T ->
  Re.matches_from U true T (highlight_re skill) 1 fuel pos must = Some ms ->
  sublist (drop pos T) (Re.substitute T mark_items pos ms)
  /\ length (Re.substitute T mark_items pos ms)
     = length T - pos + length ms * (length mark_open + length mark_close).
Proof.
  revert pos must ms; induction fuel as [|fuel IH]; intros pos must ms Hpos;
    [done|].
  simpl.
  destruct (Re.search_from U true T (highlight_re skill) 1 pos must)
    as [[[b e] caps]|] eqn:Hs.
  - destruct (Re.matches_from _ _ _ _ _ fuel e _) as [rest|] eqn:Hrest; [|done].
    intros [= <-].
    pose proof Hs as Hs'.
    apply search_from_sound in Hs as (Hb & He & _); [|done].
    apply scan_match_at_any in Hs' as [must' Hat].
    apply match_at_highlight_group in Hat.
    destruct (IH e _ rest He Hrest) as [IHsub IHlen].
    cbn [Re.substitute]. rewrite expand_mark_items.
    unfold Re.group_text. rewrite Hat.
    assert (drop pos T = slice T pos b ++ slice T b e ++ drop e T) as ->.
    { rewrite (drop_slice T pos b) by lia. f_equal. apply drop_slice. lia. }
    split.
    + rewrite <- !app_assoc.
      apply sublist_app; [done|]. apply sublist_inserts_l.
      apply sublist_app; [done|]. by apply sublist_inserts_l.
    + rewrite !length_app, IHlen, !length_slice by lia. cbn [length].
      change (length mark_open) with 79. change (length mark_close) with 7. lia.
  - intros [= <-]. simpl. rewrite length_drop. split; [done|lia].
Qed.

Lemma sub_highlight_inserts :
  exists ms h,
    Re.all_matches U true T (highlight_re skill) 1 = Some ms
    /\ Re.sub U (Re.Pattern (highlight_re skill) 1 true) mark_template T = Ok h
    /\ sublist T h
    /\ length h = length T + length ms * (length mark_open + length mark_close).
Proof.
  destruct (sub_highlight U T skill) as (ms & Hms & Hsub).
  exists ms, (Re.substitute T mark_items 0 ms). split; [done|]. split; [done|].
  destruct (substitute_highlight _ 0 false ms ltac:(lia) Hms) as [H1 H2].
  rewrite drop_0 in H1. split; [done|]. rewrite H2. lia.
Qed.

(** A skill that occurs is matched at least once. *)
Lemma all_matches_occurrence ms :
  has_occurrence U T skill = true ->
  Re.all_matches U true T (highlight_re skill) 1 = Some ms -> ms <> [].
Proof.
  intros Hocc Hms ->. apply all_matches_head in Hms. simpl in Hms.
  symmetry in Hms.
  apply existsb_exists in Hocc as (i & Hi%in_seq & Hocc).
  eapply (search_from_none _ _ _ _ _ _ _ Hms i); [lia|].
  split; [|by intros ([=] & _)].
  apply matches_highlight_re. eauto.
Qed.
End HighlightSubstitution.

Lemma highlight_loop_inserts U skills T :
  exists h, highlight_loop U T skills = Ok h /\ sublist T h.
Proof.
  revert T; induction skills as [|skill skills IH]; intros T;
    cbn [highlight_loop]; [by exists T|].
  rewrite compile_highlight_pattern. cbn [mbind result_bind].
  destruct (sub_highlight_inserts U T skill) as (ms & h1 & _ & -> & Hsub & _).
  destruct (IH h1) as (h & Hh & Hsub'). exists h. split; [done|].
  by etrans.
Qed.

(** X2.  [highlight_text] returns for every text and every skill list, and
    it only inserts: the text is a subsequence of the result, which is at
    least as long. *)
Theorem highlight_text_only_inserts U T S :
  exists h, highlight_text U T S = Ok h /\ sublist T h
            /\ length T <= length h.
Proof.
  destruct (highlight_loop_inserts U (sorted_by_len_desc S) T) as (h & Hh & Hsub).
  exists h. split; [done|]. split; [done|]. by apply sublist_length.
Qed.

Lemma highlight_loop_grows U skills T h :
  highlight_loop U T skills = Ok h ->
  Exists (fun skill => has_occurrence U T skill = true) skills ->
  length T < length h.
Proof.
  revert T; induction skills as [|skill skills IH]; intros T Hh Hex;
    [by apply Exists_nil in Hex|].
  cbn [highlight_loop] in Hh. rewrite compile_highlight_pattern in Hh.
  cbn [mbind result_bind] in Hh.
  destruct (sub_highlight_inserts U T skill) as (ms & h1 & Hms & Hsub & _ & Hlen).
  rewrite Hsub in Hh. cbn [mbind result_bind] in Hh.
  destruct (has_occurrence U T skill) eqn:Hocc.
  - pose proof (all_matches_occurrence U T skill ms Hocc Hms) as Hne.
    destruct (highlight_loop_inserts U skills h1) as (h' & Hh' & Hsub').
    rewrite Hh in Hh'. injection Hh' as <-.
    apply sublist_length in Hsub'.
    destruct ms; [done|]. simpl in Hlen. lia.
  - rewrite (sub_highlight_no_occurrence U T skill Hocc) in Hsub.
    injection Hsub as <-. apply IH; [done|].
    apply Exists_cons in Hex as [Hex|Hex]; [congruence|done].
Qed.




(** ** The order in which skills are highlighted *)

Lemma insert_by_len_sorted s l :
  StronglySorted (fun a b : pystr => length b <= length a) l ->
  StronglySorted (fun a b : pystr => length b <= length a) (insert_by_len s l).
Proof.
  induction 1 as [|x l Hsorted IH Hx]; simpl.
  - repeat constructor.
  - destruct (Nat.ltb_spec (length s) (length x)) as [Hlt|Hge].
    + constructor; [done|].
      rewrite insert_by_len_perm. constructor; [lia|done].
    + constructor; [by constructor|].
      constructor; [done|]. eapply Forall_impl; [exact Hx|].
      intros y Hy. simpl in Hy. lia.
Qed.

Lemma insert_by_len_stable n s l :
  filter (fun x : pystr => length x = n) (insert_by_len s l)
  = filter (fun x : pystr => length x = n) (s :: l).
Proof.
  induction l as [|x l IH]; simpl; [done|].
  destruct (Nat.ltb_spec (length s) (length x)) as [Hlt|Hge]; [|done].
  rewrite !filter_cons, IH, filter_cons.
  destruct (decide (length x = n)), (decide (length s = n)); try done. lia.
Qed.

(** X4.  [sorted(skills, key=len, reverse=True)] is a stable sort: the
    result is a permutation of the list, no skill is followed by a longer
    one, and the skills of each length keep the order they had. *)
Theorem sorted_by_len_desc_stable_sort S :
  sorted_by_len_desc S ≡ₚ S
  /\ StronglySorted (fun a b : pystr => length b <= length a)
       (sorted_by_len_desc S)
  /\ forall n, filter (fun x : pystr => length x = n) (sorted_by_len_desc S)
               = filter (fun x : pystr => length x = n) S.
Proof.
  split; [apply sorted_by_len_desc_perm|]. split.
  - induction S as [|s S IH]; simpl; [constructor|].
    by apply insert_by_len_sorted.
  - intros n. induction S as [|s S IH]; simpl; [done|].
    by rewrite insert_by_len_stable, !filter_cons, IH.
Qed.

(** ** Scores without a match *)

Lemma filter_none {A} (f : A -> bool) l :
  Forall (fun x => f x = false) l -> List.filter f l = [].
Proof. induction 1 as [|x l Hx _ IH]; simpl; [done|]. by rewrite Hx. Qed.

(** X5.  When the list is not empty and no skill occurs in the text,
    the score is the float [0.0] (not the int [0] of the empty list) and
    there are no matched skills. *)
Theorem score_resume_nothing_found U T S :
  S <> [] ->
  Forall (fun skill => has_occurrence U T skill = false) S ->
  score_resume U T S = Ok (PyFloat (S754_zero false))
  /\ matched_skills U T S = Ok [].
Proof.
  intros Hne Hall. split.
  - unfold score_resume. rewrite count_found_occurrences.
    unfold occurrence_count. rewrite filter_none by done.
    by destruct S as [|s S].
  - rewrite matched_skills_filter. by rewrite filter_none.
Qed.

Lemma score_resume_nothing_found_witness :
  score_resume basic_latin (str "Experienced in Java") [str "python"; str "sql"]
    = Ok (PyFloat (S754_zero false))
  /\ matched_skills basic_latin (str "Experienced in Java")
       [str "python"; str "sql"] = Ok [].
Proof.
  apply (score_resume_nothing_found basic_latin); [discriminate|].
  repeat (constructor; [vm_compute; reflexivity|]). constructor.
Defined.

(** ** The sentinel of the contact fields *)

Lemma extract_email_search U T :
  extract_email U T
  = Ok (match Re.search_from U false T email_re 0 0 false with
        | Some (b, e, _) => slice T b e
        | None => not_found
        end).
Proof.
  unfold extract_email. rewrite compile_email_pattern.
  cbn [mbind result_bind]. unfold Re.findall.
  cbn [Re.pat_re Re.pat_groups Re.pat_ignorecase].
  destruct (all_matches_total U false T email_re 0) as [ms Hms].
  rewrite Hms. apply all_matches_head in Hms. rewrite <- Hms.
  by destruct ms as [|[[b e] caps] ms].
Qed.

Lemma extract_phone_search U T :
  extract_phone U T
  = Ok (match Re.search_from U false T phone_re 1 0 false with
        | Some (b, e, _) => slice T b e
        | None => not_found
        end).
Proof.
  unfold extract_phone. rewrite compile_phone_pattern.
  cbn [mbind result_bind]. unfold Re.findall.
  cbn [Re.pat_re Re.pat_groups Re.pat_ignorecase].
  destruct (all_matches_total U false T phone_re 1) as [ms Hms].
  rewrite Hms. pose proof (all_matches_head _ _ _ _ _ _ Hms) as Hhead.
  rewrite <- Hhead.
  destruct ms as [|[[b e] caps] ms]; [done|]. simpl in Hhead.
  symmetry in Hhead. apply scan_match_at_any in Hhead as [must Hat].
  apply match_at_group_1 in Hat.
  cbn [map mret result_ret head]. unfold Re.group_text. by rewrite Hat.
Qed.

Lemma is_email_has_at w : is_email w -> cp "@" ∈ w.
Proof.
  intros (loc & dom & tld & -> & _). rewrite elem_of_app. right.
  apply list_elem_of_here.
Qed.

Lemma not_found_not_email : ~ is_email not_found.
Proof.
  intros H%is_email_has_at%list_elem_of_In. vm_compute in H.
  repeat (destruct H as [H|H]; [discriminate H|]). done.
Qed.

(** X6.  [extract_email] returns ["Not found"] exactly when no
    substring of the text is an address; the sentinel is never itself a
    match. *)
Theorem extract_email_sentinel_iff_no_address U T :
  extract_email U T = Ok not_found <-> no_substring is_email T.
Proof.
  rewrite extract_email_search.
  pose proof (search_leftmost U T email_re 0 is_email eq_refl (lang_email_re U))
    as Hsearch.
  destruct (Re.search_from U false T email_re 0 0 false) as [[[b e] caps]|].
  - destruct Hsearch as ((i & j & Hij & Heq & Hmail & _) & _). split.
    + intros [= Hnf]. rewrite Hnf in Hmail. by apply not_found_not_email in Hmail.
    + intros Hnone. destruct (Hnone i j Hij). by rewrite <- Heq.
  - done.
Qed.

Lemma not_found_not_phone U :
  isdecimal U (cp "N") = false -> ~ is_phone U not_found.
Proof.
  intros HN (plus & first & middle & last & Heq & Hplus & Hfirst & _).
  change not_found with (cp "N" :: str "ot found") in Heq.
  destruct Hplus as [->| ->]; [|discriminate Heq].
  injection Heq as Hf _. subst first.
  change (isdecimal U (cp "N") = true) in Hfirst. congruence.
Qed.

(** X7.  [extract_phone] returns ["Not found"] exactly when no
    substring of the text is a phone number, for character tables in which
    the letter N is not a digit. *)
Theorem extract_phone_sentinel_iff_no_number U T :
  isdecimal U (cp "N") = false ->
  extract_phone U T = Ok not_found <-> no_substring (is_phone U) T.
Proof.
  intros HN. rewrite extract_phone_search.
  pose proof (search_leftmost U T phone_re 1 (is_phone U) eq_refl
                (lang_phone_re U)) as Hsearch.
  destruct (Re.search_from U false T phone_re 1 0 false) as [[[b e] caps]|].
  - destruct Hsearch as ((i & j & Hij & Heq & Hphone & _) & _). split.
    + intros [= Hnf]. rewrite Hnf in Hphone.
      by apply not_found_not_phone in Hphone.
    + intros Hnone. destruct (Hnone i j Hij). by rewrite <- Heq.
  - done.
Qed.

Lemma extract_phone_sentinel_iff_no_number_witness :
  extract_phone basic_latin (str "call 555-1234") = Ok not_found
  <-> no_substring (is_phone basic_latin) (str "call 555-1234").
Proof.
  apply (extract_phone_sentinel_iff_no_number basic_latin). reflexivity.
Defined.

(** ** A resume without text *)

Lemma has_occurrence_empty_text U skill : has_occurrence U [] skill = false.
Proof. reflexivity. Qed.

(** X8.  On a resume without text (a scanned PDF, say) nothing is found:
    the score is the int [0] for the empty skill list and the float [0.0]
    otherwise, no skill is matched, the preview is empty and both contact
    fields are ["Not found"]. *)
Theorem empty_resume_text U S :
  score_resume U [] S
    = Ok (match S with [] => PyInt 0 | _ :: _ => PyFloat (S754_zero false) end)
  /\ matched_skills U [] S = Ok []
  /\ highlight_text U [] S = Ok []
  /\ extract_email U [] = Ok not_found
  /\ extract_phone U [] = Ok not_found.
Proof.
  assert (Forall (fun skill => has_occurrence U [] skill = false) S) as Hnone.
  { apply Forall_forall. intros skill _. apply has_occurrence_empty_text. }
  split_and!.
  - unfold score_resume. rewrite count_found_occurrences.
    unfold occurrence_count. rewrite filter_none by done. by destruct S.
  - rewrite matched_skills_filter. by rewrite filter_none.
  - unfold highlight_text. apply highlight_loop_no_occurrence.
    by rewrite sorted_by_len_desc_perm.
  - reflexivity.
  - reflexivity.
Qed.

(** ** Greedy repeats give the longest contact field *)

Lemma try_down_first {R} n lo i (k : nat -> option R) r :
  Re.try_down n lo i k = Some r ->
  exists j, lo <= j <= n /\ k (i + j) = Some r
            /\ forall j', j < j' <= n -> k (i + j') = None.
Proof.
  induction n as [|n IH]; simpl.
  - destruct (Nat.ltb_spec 0 lo); [done|].
    destruct (k (i + 0)) eqn:Hk; [|done].
    intros [= <-]. exists 0. split_and!; [lia|lia|done|]. intros j' ?; lia.
  - destruct (Nat.ltb_spec (S n) lo); [done|].
    destruct (k (i + S n)) eqn:Hk.
    + intros [= <-]. exists (S n). split_and!; [lia|lia|done|]. intros j' ?; lia.
    + intros Hr. destruct (IH Hr) as (j & Hj & Hkj & Hmax).
      exists j. split_and!; [lia|lia|done|].
      intros j' Hj'. destruct (decide (j' = S n)) as [->|Hne]; [done|].
      apply Hmax. lia.
Qed.

Lemma accepts_lookup U ic T s p c :
  accepts U ic T s p -> T !! p = Some c -> Re.single_match U ic s c = true.
Proof. intros (c' & Hc' & Hm) Hc. congruence. Qed.

(** A run accepted by a repeat without upper bound is within the run the
    matcher counts. *)
Lemma count_run_covers U ic T s i j :
  i <= j -> (forall p, i <= p < j -> accepts U ic T s p) ->
  j - i <= Re.count_run U ic T s i (length T - i).
Proof.
  intros Hij Hall. apply count_run_maximal.
  - destruct (decide (j = i)) as [->|Hne]; [lia|].
    assert (j - 1 < length T); [|lia].
    apply (accepts_lt U ic T s). apply Hall. lia.
  - intros p Hp. apply Hall. lia.
Qed.

Section EmailLongest.
Context (U : unidb) (T : pystr).

Local Abbreviation local_set :=
  (Re.SIn false
     [Re.IRange (cp "a") (cp "z"); Re.IRange (cp "A") (cp "Z");
      Re.IRange (cp "0") (cp "9"); Re.ILit (cp "."); Re.ILit (cp "_");
      Re.ILit (cp "%"); Re.ILit (cp "+"); Re.ILit (cp "-")]).
Local Abbreviation domain_set :=
  (Re.SIn false
     [Re.IRange (cp "a") (cp "z"); Re.IRange (cp "A") (cp "Z");
      Re.IRange (cp "0") (cp "9"); Re.ILit (cp "."); Re.ILit (cp "-")]).
Local Abbreviation letter_set :=
  (Re.SIn false [Re.IRange (cp "a") (cp "z"); Re.IRange (cp "A") (cp "Z")]).

Lemma email_match_at_longest b e caps e' :
  Re.match_at U false T email_re 0 b false = Some (b, e, caps) ->
  matches U false T email_re b e' -> e' <= e.
Proof.
  unfold Re.match_at, email_re. cbn [Re.seq_of foldr Re.m matches andb].
  intros H (mid1 & (Hb1 & Hlo1 & _ & HL) & mid2 & [Hat ->]
            & mid3 & (Hb3 & Hlo3 & _ & HD) & mid4 & [Hdot ->]
            & mid5 & (Hb5 & Hlo5 & _ & HA) & ->).
  apply try_down_first in H as (jL & HjL & H & _).
  destruct (T !! (b + jL)) as [c1|] eqn:Hc1; [|done].
  destruct (Re.single_match U false (Re.SLit (cp "@")) c1) eqn:Hc1at; [|done].
  apply N.eqb_eq in Hc1at. subst c1.
  apply try_down_first in H as (jD & HjD & H & HmaxD).
  destruct (T !! (S (b + jL) + jD)) as [c2|] eqn:Hc2; [|done].
  destruct (Re.single_match U false (Re.SLit (cp ".")) c2) eqn:Hc2dot; [|done].
  apply N.eqb_eq in Hc2dot. subst c2.
  apply try_down_first in H as (jA & HjA & H & HmaxA).
  injection H as <- _.
  (* the at sign is where the matcher found it *)
  assert (mid1 = b + jL) as ->.
  { destruct Hat as (c & Hc & Hm). apply N.eqb_eq in Hm. subst c.
    destruct (Nat.lt_trichotomy mid1 (b + jL)) as [Hlt|[->|Hgt]]; [|done|].
    - assert (accepts U false T local_set mid1) as Hacc.
      { apply (count_run_accepts U false T local_set b (length T - b)). lia. }
      by pose proof (accepts_lookup _ _ _ _ _ _ Hacc Hc).
    - assert (accepts U false T local_set (b + jL)) as Hacc by (apply HL; lia).
      by pose proof (accepts_lookup _ _ _ _ _ _ Hacc Hc1). }
  pose proof (count_run_covers U false T letter_set (S mid3) mid5 Hb5 HA) as HcovA.
  pose proof (count_run_covers U false T domain_set (S (b + jL)) mid3 Hb3 HD)
    as HcovD.
  (* the matcher tried the dot of the other match, and it would do *)
  assert (mid3 - S (b + jL) <= jD) as Hdotle.
  { destruct (decide (mid3 - S (b + jL) <= jD)) as [|Hgt]; [done|].
    specialize (HmaxD (mid3 - S (b + jL)) ltac:(lia)).
    replace (S (b + jL) + (mid3 - S (b + jL))) with mid3 in HmaxD by lia.
    destruct Hdot as (c & Hc & Hm). rewrite Hc, Hm in HmaxD.
    exfalso. eapply is_Some_None. rewrite <- HmaxD.
    apply (try_down_complete _ _ _ _ (mid5 - S mid3)); [lia|done]. }
  destruct (decide (mid3 = S (b + jL) + jD)) as [->|Hne].
  - assert (mid5 - S (S (b + jL) + jD) <= jA); [|lia].
    destruct (decide (mid5 - S (S (b + jL) + jD) <= jA)) as [|Hgt]; [done|].
    by specialize (HmaxA (mid5 - S (S (b + jL) + jD)) ltac:(lia)).
  - assert (mid5 <= S (b + jL) + jD); [|lia].
    destruct (decide (mid5 <= S (b + jL) + jD)) as [|Hgt]; [done|].
    assert (accepts U false T letter_set (S (b + jL) + jD)) as Hacc
      by (apply HA; lia).
    by pose proof (accepts_lookup _ _ _ _ _ _ Hacc Hc2).
Qed.
End EmailLongest.

Section PhoneLongest.
Context (U : unidb) (T : pystr).
Hypothesis plus_not_digit : isdecimal U (cp "+") = false.

Local Abbreviation digit_set := (Re.SIn false [Re.ICat Re.CatDigit]).
Local Abbreviation phone_set :=
  (Re.SIn false [Re.ICat Re.CatDigit; Re.ICat Re.CatSpace; Re.ILit (cp "-")]).

Lemma accepts_plus_not_digit p :
  accepts U false T (Re.SLit (cp "+")) p ->
  accepts U false T digit_set p -> False.
Proof.
  intros (c & Hc & Hp%N.eqb_eq) (c' & Hc' & Hd). subst c.
  assert (c' = cp "+") as -> by congruence.
  simpl in Hd. rewrite orb_false_r in Hd.
  change (isdecimal U (cp "+") = true) in Hd. congruence.
Qed.

Lemma phone_match_at_longest b e caps e' :
  Re.match_at U false T phone_re 1 b false = Some (b, e, caps) ->
  matches U false T phone_re b e' -> e' <= e.
Proof.
  unfold Re.match_at, phone_re, phone_body_re.
  cbn [Re.seq_of foldr Re.m matches andb].
  intros H (mid & (mid1 & (Hb1 & _ & Hhi1 & Hplus) & mid2 & [Hd1 ->]
                   & mid3 & (Hb3 & Hlo3 & _ & HP) & mid4 & [Hd2 ->] & ->) & ->).
  specialize (Hhi1 1 eq_refl).
  apply try_down_first in H as (jp & Hjp & H & _).
  destruct (T !! (b + jp)) as [c1|] eqn:Hc1; [|done].
  destruct (Re.single_match U false digit_set c1) eqn:Hc1d; [|done].
  apply try_down_first in H as (jP & HjP & H & HmaxP).
  destruct (T !! (S (b + jp) + jP)) as [c2|] eqn:Hc2; [|done].
  destruct (Re.single_match U false digit_set c2) eqn:Hc2d; [|done].
  injection H as <- _.
  pose proof (count_run_le U false T (Re.SLit (cp "+")) b 1) as Hjp1.
  (* both matches take the plus sign, or neither does *)
  assert (mid1 = b + jp) as ->.
  { destruct (Nat.lt_trichotomy mid1 (b + jp)) as [Hlt|[->|Hgt]]; [|done|].
    - exfalso. apply (accepts_plus_not_digit mid1); [|done].
      apply (count_run_accepts U false T _ b 1). lia.
    - exfalso. apply (accepts_plus_not_digit (b + jp)); [apply Hplus; lia|].
      by exists c1. }
  pose proof (count_run_covers U false T phone_set (S (b + jp)) mid3 Hb3 HP)
    as HcovP.
  assert (mid3 - S (b + jp) <= jP); [|lia].
  destruct (decide (mid3 - S (b + jp) <= jP)) as [|Hgt]; [done|].
  specialize (HmaxP (mid3 - S (b + jp)) ltac:(lia)).
  replace (S (b + jp) + (mid3 - S (b + jp))) with mid3 in HmaxP by lia.
  destruct Hd2 as (c & Hc & Hm). by rewrite Hc, Hm in HmaxP.
Qed.
End PhoneLongest.

Section LeftmostLongest.
Context (U : unidb) (T : pystr) (r : Re.regex) (groups : nat).
Context (P : pystr -> Prop).
Hypothesis r_free : anchor_free r = true.
Hypothesis r_lang : forall w, lang U r w <-> P w.
Hypothesis r_longest : forall b e caps e',
  Re.match_at U false T r groups b false = Some (b, e, caps) ->
  matches U false T r b e' -> e' <= e.

Lemma search_leftmost_longest :
  match Re.search_from U false T r groups 0 false with
  | Some (b, e, _) => leftmost_longest_substring P T (slice T b e)
  | None => no_substring P T
  end.
Proof.
  pose proof (search_leftmost U T r groups P r_free r_lang) as Hsearch.
  destruct (Re.search_from U false T r groups 0 false) as [[[b e] caps]|] eqn:Hs;
    [|done].
  destruct Hsearch as (_ & Hbe & Hat).
  apply search_from_sound in Hs as (_ & _ & [Hm _] & _ & _ & Hleft); [|lia].
  apply (matches_substring U T r P r_free r_lang) in Hm as [_ HP]; [|lia].
  exists b, e. split_and!; try done; try lia.
  intros i' j' Hij' HP'.
  assert (matches U false T r i' j') as Hm'.
  { apply (matches_substring U T r P r_free r_lang); [lia|done]. }
  destruct (Nat.lt_trichotomy i' b) as [Hlt|[->|Hgt]]; [|right|left; done].
  - exfalso. apply (Hleft i' j'); [lia|]. split; [done|]. by intros ([=] & _).
  - split; [done|]. by eapply r_longest.
Qed.
End LeftmostLongest.

(** X9.  The address [extract_email] returns is the leftmost address in
    the text, and the longest of the addresses that start there. *)
Theorem extract_email_leftmost_longest U T :
  exists r, extract_email U T = Ok r
    /\ (leftmost_longest_substring is_email T r
        \/ (no_substring is_email T /\ r = not_found)).
Proof.
  rewrite extract_email_search.
  pose proof (search_leftmost_longest U T email_re 0 is_email eq_refl
                (lang_email_re U) (email_match_at_longest U T)) as Hsearch.
  destruct (Re.search_from U false T email_re 0 0 false) as [[[b e] caps]|].
  - exists (slice T b e). split; [done|]. by left.
  - exists not_found. split; [done|]. by right.
Qed.

(** X10.  The number [extract_phone] returns is the leftmost phone
    number in the text, and the longest of those that start there, for
    character tables in which the plus sign is not a digit. *)
Theorem extract_phone_leftmost_longest U T :
  isdecimal U (cp "+") = false ->
  exists r, extract_phone U T = Ok r
    /\ (leftmost_longest_substring (is_phone U) T r
        \/ (no_substring (is_phone U) T /\ r = not_found)).
Proof.
  intros Hplus. rewrite extract_phone_search.
  pose proof (search_leftmost_longest U T phone_re 1 (is_phone U) eq_refl
                (lang_phone_re U) (phone_match_at_longest U T Hplus)) as Hsearch.
  destruct (Re.search_from U false T phone_re 1 0 false) as [[[b e] caps]|].
  - exists (slice T b e). split; [done|]. by left.
  - exists not_found. split; [done|]. by right.
Qed.

Lemma extract_phone_leftmost_longest_witness :
  exists r, extract_phone basic_latin (str "call +63 912 345 6789 now") = Ok r
    /\ (leftmost_longest_substring (is_phone basic_latin)
          (str "call +63 912 345 6789 now") r
        \/ (no_substring (is_phone basic_latin) (str "call +63 912 345 6789 now")
            /\ r = not_found)).
Proof. apply extract_phone_leftmost_longest. reflexivity. Defined.

(** ** Rounding to two decimals *)

Section RoundingFacts.
Local Open Scope Z_scope.


Lemma round_half_even_bounds n d B :
  0 < d -> 0 <= n <= B * d -> 0 <= round_half_even n d <= B.
Proof.
  intros Hd [Hn HB]. unfold round_half_even.
  pose proof (Z.div_mod n d ltac:(lia)) as Hdm.
  pose proof (Z.mod_pos_bound n d Hd) as Hr.
  assert (0 <= n / d) as Hq by (apply Z.div_pos; lia).
  assert (n / d <= B) as HqB by (apply Z.div_le_upper_bound; lia).
  destruct (Z.compare_spec (2 * (n mod d)) d) as [Heq|Hlt|Hgt].
  - destruct (Z.even (n / d)); [lia|].
    destruct (decide (n / d = B)) as [HeqB|]; [nia|lia].
  - lia.
  - destruct (decide (n / d = B)) as [HeqB|]; [nia|lia].
Qed.

(** A number of hundredths up to 10000 is a float between 0 and 100. *)
Lemma hundredths_below (q : positive) :
  Zpos q <= 10000 ->
  below (int_true_divide (Zpos q) 100) 7036874417766400 (-46).
Proof.
  intros Hq. unfold int_true_divide, exact_int, SFdiv, SFdiv_core_binary.
  set (d := Zdigits2 (Zpos q) + 0 - (Zdigits2 100 + 0)).
  assert (d <= 7) as Hd.
  { subst d. assert (Zdigits2 (Zpos q) <= 14) as Hle.
    { apply Zdigits2_le; [lia|lia|]. change (2 ^ 14) with 16384. lia. }
    change (Zdigits2 100) with 7. lia. }
  assert (fexp 53 1024 d <= -46) as Hf by (unfold fexp, emin; lia).
  rewrite Z.min_l by lia.
  set (e := fexp 53 1024 d) in *.
  destruct (0 - 0 - e) as [|s|s] eqn:Hs; [lia| |lia].
  rewrite div_eucl_div_mod, Z.shiftl_mul_pow2 by lia. simpl xorb.
  assert (0 < 2 ^ Zpos s) as Hps by (apply Z.pow_pos_nonneg; lia).
  assert (7036874417766400 * 2 ^ (-46 - e) = 100 * 2 ^ Zpos s) as Hone.
  { change 7036874417766400 with (100 * 2 ^ 46).
    rewrite <- Z.mul_assoc, <- Z.pow_add_r by lia. do 2 f_equal. lia. }
  pose proof (Z.div_mod (Zpos q * 2 ^ Zpos s) 100 ltac:(lia)) as Hdm.
  pose proof (Z.mod_pos_bound (Zpos q * 2 ^ Zpos s) 100 ltac:(lia)) as Hr.
  assert (0 <= Zpos q * 2 ^ Zpos s / 100) as Hq0 by (apply Z.div_pos; lia).
  apply binary_round_aux_below;
    [done|clear -Hf; lia|lia|done| |].
  - rewrite Hone. apply Z.div_le_upper_bound; [lia|]. nia.
  - intros Hr0%new_location_inexact. rewrite Hone.
    apply Z.div_lt_upper_bound; [lia|]. nia.
Qed.

(** Rounding to two decimals keeps a float between 0 and 100 there. *)
Lemma float_round2_below f :
  below f 7036874417766400 (-46) ->
  below (float_round2 f) 7036874417766400 (-46).
Proof.
  destruct f as [[]| | |[] m e]; simpl; try done.
  intros [He Hm]. destruct (Z.leb_spec 0 e) as [|_]; [lia|].
  assert (0 < 2 ^ (- e)) as Hp by (apply Z.pow_pos_nonneg; lia).
  pose proof (round_half_even_bounds (Zpos m * 100) (2 ^ (- e)) 10000 Hp) as Hb.
  destruct Hb as [Hb0 Hb1].
  { split; [lia|].
    assert (7036874417766400 * 2 ^ (-46 - e) * 2 ^ 46 = 100 * 2 ^ 46 * 2 ^ (- e))
      as Heq.
    { change 7036874417766400 with (100 * 2 ^ 46).
      rewrite <- !Z.mul_assoc, <- !Z.pow_add_r by lia. do 3 f_equal. lia. }
    nia. }
  destruct (Z.eqb_spec (round_half_even (Zpos m * 100) (2 ^ (- e))) 0); [done|].
  destruct (round_half_even (Zpos m * 100) (2 ^ (- e))) as [|q|q] eqn:Hq;
    [done| |lia].
  by apply hundredths_below.
Qed.

End RoundingFacts.

(** ** The logged row *)

Lemma new_row_keys timestamp filename email phone score matched skills :
  (new_row timestamp filename email phone score matched skills).*1 = row_keys.
Proof. reflexivity. Qed.

Lemma dict_get_Some items key :
  key ∈ items.*1 -> is_Some (dict_get items key).
Proof.
  induction items as [|[k v] items IH]; simpl; [by intros ?%elem_of_nil|].
  intros Hin. case_bool_decide; [done|].
  apply elem_of_cons in Hin as [->|Hin]; [done|auto].
Qed.

(** ** Frames *)

Lemma cell_at_Some df i col :
  i < df_len df -> col ∈ df_columns df ->
  cell_at df i col = Some (df_cell df i col).
Proof. intros. unfold cell_at. by rewrite bool_decide_true. Qed.

Lemma backfill_len col df : df_len (backfill col df) = df_len df.
Proof. unfold backfill. by case_bool_decide. Qed.

Lemma backfill_columns col df :
  df_columns (backfill col df)
  = df_columns df ++ (if bool_decide (col ∈ df_columns df) then [] else [col]).
Proof.
  unfold backfill, set_column.
  destruct (decide (col ∈ df_columns df)) as [Hin|Hin].
  - rewrite (bool_decide_false (col ∉ _)) by auto.
    by rewrite bool_decide_true, app_nil_r.
  - rewrite (bool_decide_true (col ∉ _)) by auto. simpl.
    by rewrite !bool_decide_false.
Qed.

Lemma backfill_cell col df i c :
  df_cell (backfill col df) i c
  = if bool_decide (c = col /\ col ∉ df_columns df) then CellStr []
    else df_cell df i c.
Proof.
  unfold backfill, set_column.
  destruct (decide (col ∈ df_columns df)) as [Hin|Hin].
  - rewrite (bool_decide_false (col ∉ _)) by auto.
    rewrite bool_decide_false; [done|]. intros [_ ?]. done.
  - rewrite (bool_decide_true (col ∉ _)) by auto. simpl.
    destruct (decide (c = col)) as [->|Hne].
    + by rewrite !bool_decide_true.
    + rewrite !bool_decide_false; [done|by intros [? _]|done].
Qed.

Lemma updated_log_len existing row :
  df_len (updated_log existing row) = from_option df_len 0 existing + 1.
Proof.
  destruct existing as [df|]; [|done]. simpl. by rewrite !backfill_len.
Qed.

Lemma elem_of_concat_columns a b c :
  c ∈ df_columns (concat a b) <-> c ∈ df_columns a \/ c ∈ df_columns b.
Proof.
  unfold concat; simpl. rewrite elem_of_app, list_elem_of_filter.
  destruct (decide (c ∈ df_columns a)); tauto.
Qed.

Lemma cell_at_concat a b i c :
  i < df_len a + df_len b -> c ∈ df_columns (concat a b) ->
  cell_at (concat a b) i c
  = Some (default CellNaN (if bool_decide (i < df_len a) then cell_at a i c
                           else cell_at b (i - df_len a) c)).
Proof.
  intros Hi Hc. rewrite cell_at_Some by done. f_equal.
  unfold concat, cell_at; simpl.
  destruct (decide (i < df_len a)) as [Hlt|Hge].
  - rewrite !(bool_decide_true (i < _)) by done.
    destruct (decide (c ∈ df_columns a)).
    + by rewrite !bool_decide_true.
    + rewrite !bool_decide_false; [done|tauto|done].
  - rewrite !(bool_decide_false (i < df_len a)) by done.
    destruct (decide (c ∈ df_columns b)).
    + rewrite !bool_decide_true; [done|split; [lia|done]|done].
    + rewrite !bool_decide_false; [done|tauto|done].
Qed.

Lemma cell_at_frame_of_record row c :
  c ∈ row.*1 ->
  cell_at (frame_of_record row) 0 c = cell_of_value <$> dict_get row c.
Proof.
  intros Hin. rewrite cell_at_Some; [|simpl; lia|done]. simpl.
  by destruct (dict_get_Some row c Hin) as [v ->].
Qed.

Lemma cell_at_frame_of_record_None row c :
  c ∉ row.*1 -> cell_at (frame_of_record row) 0 c = None.
Proof. intros Hin. unfold cell_at. rewrite bool_decide_false; [done|]. simpl. tauto. Qed.

Lemma elem_of_backfill_columns col df c :
  c ∈ df_columns (backfill col df) <-> c ∈ df_columns df \/ c = col.
Proof.
  rewrite backfill_columns, elem_of_app. case_bool_decide.
  - rewrite elem_of_nil. split; [tauto|]. intros [?| ->]; auto.
  - rewrite list_elem_of_singleton. tauto.
Qed.

Lemma cell_at_backfill col df i c :
  i < df_len df -> c ∈ df_columns (backfill col df) ->
  cell_at (backfill col df) i c
  = Some (if bool_decide (c ∈ df_columns df) then df_cell df i c else CellStr []).
Proof.
  intros Hi Hc. rewrite cell_at_Some; [|by rewrite backfill_len|done].
  rewrite backfill_cell. f_equal.
  apply elem_of_backfill_columns in Hc.
  destruct (decide (c ∈ df_columns df)).
  - rewrite (bool_decide_true (c ∈ _)) by done.
    rewrite bool_decide_false; [done|]. intros [-> ?]. done.
  - rewrite (bool_decide_false (c ∈ _)) by done.
    rewrite bool_decide_true; [done|]. by destruct Hc as [?| ->].
Qed.

(** X11.  The frame written to the log has one row more than the one
    read; the columns read come first, in their order; and its columns are
    those read, the keys of the row, and, when a log was read, [Email] and
    [Contact_Number]. *)
Theorem updated_log_shape existing row :
  df_len (updated_log existing row) = from_option df_len 0 existing + 1
  /\ from_option df_columns [] existing `prefix_of`
       df_columns (updated_log existing row)
  /\ forall c, c ∈ df_columns (updated_log existing row) <->
       c ∈ from_option df_columns [] existing \/ c ∈ row.*1
       \/ (is_Some existing /\ (c = str "Email" \/ c = str "Contact_Number")).
Proof.
  split; [apply updated_log_len|].
  destruct existing as [df|]; cbn [updated_log from_option].
  - split.
    + unfold concat; simpl. rewrite !backfill_columns, <- !app_assoc.
      by apply prefix_app_r.
    + intros c. rewrite elem_of_concat_columns, !elem_of_backfill_columns.
      simpl. split.
      * intros [[[?|?]|?]|?]; eauto 6.
      * intros [?|[?|[_ [?|?]]]]; auto.
  - split; [apply prefix_nil|]. intros c. rewrite elem_of_nil. simpl.
    split; [auto|]. intros [[]|[?|[[? [=]] _]]]. done.
Qed.

(** X12.  The cells of the frame written to an existing log, each number
    by its value.  A row that was in the log keeps its cells under the
    columns it had, gets the empty string under [Email] and
    [Contact_Number] where the log lacked them, and the missing value under
    the other new columns; the last row holds the values of the new row,
    and the missing value under a column the row has no key for. *)
Theorem updated_log_cells df row c :
  c ∈ df_columns (updated_log (Some df) row) ->
  (forall i, i < df_len df ->
     cell_at (updated_log (Some df) row) i c
     = Some (if bool_decide (c ∈ df_columns df) then df_cell df i c
             else if bool_decide (c = str "Email" \/ c = str "Contact_Number")
                  then CellStr [] else CellNaN))
  /\ cell_at (updated_log (Some df) row) (df_len df) c
     = Some (from_option cell_of_value CellNaN (dict_get row c)).
Proof.
  intros Hc. cbn [updated_log] in *.
  set (df1 := backfill (str "Email") df) in *.
  set (df2 := backfill (str "Contact_Number") df1) in *.
  assert (df_len df2 = df_len df) as Hlen by (subst df2 df1; by rewrite !backfill_len).
  split.
  - intros i Hi. rewrite cell_at_concat; [|rewrite Hlen; lia|done].
    rewrite bool_decide_true by lia. f_equal.
    destruct (decide (c ∈ df_columns df2)) as [Hin2|Hin2].
    + subst df2. rewrite cell_at_backfill; [|by subst df1; rewrite backfill_len|done].
      simpl. apply elem_of_backfill_columns in Hin2.
      destruct (decide (c ∈ df_columns df1)) as [Hin1|Hin1].
      * rewrite (bool_decide_true (c ∈ df_columns df1)) by done.
        subst df1. rewrite backfill_cell.
        apply elem_of_backfill_columns in Hin1.
        destruct (decide (c ∈ df_columns df)).
        -- rewrite (bool_decide_true (c ∈ df_columns df)) by done.
           rewrite bool_decide_false; [done|]. intros [-> ?]. done.
        -- rewrite (bool_decide_false (c ∈ df_columns df)) by done.
           destruct Hin1 as [?| ->]; [done|].
           rewrite !bool_decide_true; [done|auto|by split].
      * rewrite (bool_decide_false (c ∈ df_columns df1)) by done.
        assert (c ∉ df_columns df) as Hin0.
        { intros ?. apply Hin1. subst df1. apply elem_of_backfill_columns. auto. }
        rewrite (bool_decide_false (c ∈ df_columns df)) by done.
        rewrite bool_decide_true; [done|]. by destruct Hin2 as [?| ->]; [|right].
    + unfold cell_at at 1. rewrite bool_decide_false by tauto. simpl.
      assert (c ∉ df_columns df) as Hin0.
      { intros ?. apply Hin2. subst df2 df1.
        rewrite !elem_of_backfill_columns. auto. }
      rewrite (bool_decide_false (c ∈ df_columns df)) by done.
      rewrite bool_decide_false; [done|].
      intros [->| ->]; apply Hin2; subst df2 df1;
        rewrite !elem_of_backfill_columns; auto.
  - rewrite cell_at_concat; [|rewrite Hlen; simpl; lia|done].
    rewrite bool_decide_false by lia. rewrite Hlen, Nat.sub_diag.
    destruct (decide (c ∈ row.*1)) as [Hin|Hin].
    + rewrite cell_at_frame_of_record by done.
      by destruct (dict_get_Some row c Hin) as [v ->].
    + rewrite cell_at_frame_of_record_None by done.
      destruct (dict_get row c) eqn:Hget; [|done].
      exfalso. apply Hin. clear -Hget.
      induction row as [|[k v] row IH]; simpl in *; [done|].
      case_bool_decide; [subst; by left|right; auto].
Qed.

Lemma updated_log_cells_witness :
  (forall i, i < 1 ->
     cell_at (updated_log (Some old_log) jane_row) i (str "Match_Score(%)")
     = Some (CellNum (S754_zero false)))
  /\ cell_at (updated_log (Some old_log) jane_row) 1 (str "Match_Score(%)")
     = Some (CellNum float_100).
Proof.
  apply (updated_log_cells old_log jane_row (str "Match_Score(%)")).
  apply (bool_decide_unpack _). vm_compute. reflexivity.
Defined.

Lemma backfill_present col df : col ∈ df_columns df -> backfill col df = df.
Proof. intros Hin. unfold backfill. rewrite bool_decide_false; auto. Qed.

Lemma filter_not_elem_of_self (l : list pystr) :
  filter (fun c => c ∉ l) l = [].
Proof.
  assert (forall k : list pystr, Forall (fun c => c ∈ l) k ->
            filter (fun c => c ∉ l) k = []) as Hk.
  { induction 1 as [|c k Hc _ IH]; [done|].
    by rewrite filter_cons_False by auto. }
  apply Hk, Forall_forall. auto.
Qed.

(** ** The logged score *)

Lemma percentage_below (m n : nat) :
  m <= n -> 0 < n -> below (percentage m n) 7036874417766400 (-46).
Proof.
  intros Hmn Hn. unfold percentage. apply float_mul_100_below.
  destruct n as [|n]; [lia|]. destruct m as [|m]; [done|].
  change (Z.of_nat (S m)) with (Zpos (Pos.of_succ_nat m)).
  change (Z.of_nat (S n)) with (Zpos (Pos.of_succ_nat n)).
  apply int_true_divide_below. lia.
Qed.

(** A float between 0 and 100 rounds to a whole number of hundredths. *)
Lemma float_round2_hundredths f :
  below f 7036874417766400 (-46) ->
  exists q, (0 <= q <= 10000)%Z /\ float_round2 f = int_true_divide q 100.
Proof.
  destruct f as [[]| | |[] m e]; simpl; try done; [by exists 0%Z|].
  intros [He Hm]. destruct (Z.leb_spec 0 e) as [|_]; [lia|].
  assert (0 < 2 ^ (- e))%Z as Hp by (apply Z.pow_pos_nonneg; lia).
  pose proof (round_half_even_bounds (Zpos m * 100) (2 ^ (- e)) 10000 Hp) as Hb.
  destruct Hb as [Hb0 Hb1].
  { split; [lia|].
    assert (7036874417766400 * 2 ^ (-46 - e) * 2 ^ 46
            = 100 * 2 ^ 46 * 2 ^ (- e))%Z as Heq.
    { change 7036874417766400%Z with (100 * 2 ^ 46)%Z.
      rewrite <- !Z.mul_assoc, <- !Z.pow_add_r by lia. do 3 f_equal. lia. }
    nia. }
  exists (round_half_even (Zpos m * 100) (2 ^ (- e))). split; [done|].
  by destruct (Z.eqb_spec (round_half_even (Zpos m * 100) (2 ^ (- e))) 0)
    as [->|].
Qed.

(** X14.  The score written to the log, [round(score, 2)], is the int
    [0] for the empty skill list; otherwise it is a float between 0 and 100
    and the float nearest to [q / 100] for a whole number [q] of hundredths
    between 0 and 10000. *)
Theorem logged_score_in_range U T S :
  exists score, score_resume U T S = Ok score
    /\ match py_round2 score with
       | PyInt z => z = 0%Z /\ S = []
       | PyFloat f =>
         S <> []
         /\ (exists q, (0 <= q <= 10000)%Z /\ f = int_true_divide q 100)
         /\ float_leb (S754_zero false) f = true
         /\ float_leb f float_100 = true
       end.
Proof.
  unfold score_resume. rewrite count_found_occurrences.
  cbn [mbind result_bind mret result_ret]. eexists. split; [done|].
  destruct S as [|s S]; [done|]. cbn [py_round2].
  fold (percentage (occurrence_count U T (s :: S)) (length (s :: S))).
  assert (below (percentage (occurrence_count U T (s :: S)) (length (s :: S)))
                7036874417766400 (-46)) as Hb.
  { apply percentage_below; [apply length_filter_le|simpl; lia]. }
  split; [done|]. split; [by apply float_round2_hundredths|].
  rewrite float_100_eq. by apply below_leb, float_round2_below.
Qed.

(** X15.  Rounding leaves the two ends of the scale alone: for a list
    that is not empty the logged score is the float 100 when every skill
    occurs in the text and the float 0 when none does. *)
Theorem logged_score_extremes U T S :
  S <> [] ->
  exists score, score_resume U T S = Ok score
    /\ (Forall (fun skill => has_occurrence U T skill = true) S ->
        py_round2 score = PyFloat float_100)
    /\ (Forall (fun skill => has_occurrence U T skill = false) S ->
        py_round2 score = PyFloat (S754_zero false)).
Proof.
  intros Hne. unfold score_resume. rewrite count_found_occurrences.
  cbn [mbind result_bind mret result_ret]. eexists. split; [done|].
  destruct S as [|s S]; [done|].
  fold (percentage (occurrence_count U T (s :: S)) (length (s :: S))).
  unfold occurrence_count. split; intros Hall.
  - rewrite filter_all by done. by rewrite percentage_full by (simpl; lia).
  - by rewrite filter_none by done.
Qed.

Lemma logged_score_extremes_witness :
  exists score,
    score_resume basic_latin (str "Python and SQL") [str "python"; str "sql"]
      = Ok score
    /\ (Forall (fun skill =>
                  has_occurrence basic_latin (str "Python and SQL") skill = true)
               [str "python"; str "sql"] ->
        py_round2 score = PyFloat float_100)
    /\ (Forall (fun skill =>
                  has_occurrence basic_latin (str "Python and SQL") skill = false)
               [str "python"; str "sql"] ->
        py_round2 score = PyFloat (S754_zero false)).
Proof. apply (logged_score_extremes basic_latin); discriminate. Defined.

(** ** The preview *)

(** X16.  The preview of the main script, [highlight_text] of the
    resume text with the matched skills, differs from the resume text
    exactly when at least one skill is matched. *)
Theorem preview_marked_iff_skill_matched U T S :
  exists ms h, matched_skills U T S = Ok ms
    /\ highlight_text U T ms = Ok h
    /\ (h = T <-> ms = []).
Proof.
  rewrite matched_skills_filter.
  set (ms := List.filter (has_occurrence U T) S).
  destruct (highlight_loop_inserts U (sorted_by_len_desc ms) T) as (h & Hh & _).
  exists ms, h. split; [done|]. split; [done|]. split.
  - intros ->. destruct ms as [|skill ms'] eqn:Hms; [done|].
    assert (length T < length T); [|lia].
    apply (highlight_loop_grows U (sorted_by_len_desc (skill :: ms')) T T Hh).
    apply Exists_exists. exists skill. split.
    + rewrite sorted_by_len_desc_perm. by left.
    + assert (In skill (List.filter (has_occurrence U T) S)) as Hin.
      { fold ms. rewrite Hms. by left. }
      by apply filter_In in Hin as [_ ?].
  - intros Hnil. rewrite Hnil in Hh. by injection Hh.
Qed.

(** ** Strings of the main script *)

Lemma lstrip_nil_iff U s :
  lstrip U s = [] <-> Forall (fun c => isspace U c = true) s.
Proof.
  induction s as [|c s IH]; simpl; [done|].
  destruct (isspace U c) eqn:Hc.
  - rewrite IH. split; [by constructor|by intros [_ ?]%Forall_cons].
  - split; [done|]. intros [? _]%Forall_cons. congruence.
Qed.

Lemma lstrip_spaces_iff U s :
  Forall (fun c => isspace U c = true) (lstrip U s)
  <-> Forall (fun c => isspace U c = true) s.
Proof.
  induction s as [|c s IH]; simpl; [done|].
  destruct (isspace U c) eqn:Hc; [|done].
  rewrite IH. split; [by constructor|by intros [_ ?]%Forall_cons].
Qed.

Lemma Forall_rev_iff {A} (P : A -> Prop) (l : list A) :
  Forall P (rev l) <-> Forall P l.
Proof.
  rewrite !Forall_forall.
  split; intros H x Hx; apply H; rewrite list_elem_of_In in *.
  - by rewrite <- in_rev.
  - by rewrite in_rev.
Qed.

(** A string strips to nothing exactly when it is white space only. *)
Lemma strip_nil_iff U s :
  strip U s = [] <-> Forall (fun c => isspace U c = true) s.
Proof.
  unfold strip. rewrite <- (lstrip_spaces_iff U s).
  rewrite <- (Forall_rev_iff _ (lstrip U s)) at 1.
  rewrite <- lstrip_nil_iff. split; [|by intros ->].
  intros H. apply (f_equal (@rev _)) in H. by rewrite rev_involutive in H.
Qed.

(** ** Runs of the main script *)

Lemma temp_file_not_log name : str "temp_" ++ name <> EXCEL_DB.
Proof. discriminate. Qed.

Section MainFacts.
Context (U : unidb) (nlp : pystr -> doc).
Context (extract_text : list Byte.byte -> option pystr).
Context (paragraphs : list Byte.byte -> option (list pystr)).
Context (read_excel : list Byte.byte -> option dataframe).
Context (to_excel : dataframe -> option (list Byte.byte)).
Context (writable : gmap pystr (list Byte.byte) -> pystr -> list Byte.byte -> bool).
Context (now : pystr).

Lemma write_file_Some fs path data fs' :
  write_file writable fs path data = Some fs' -> fs' = <[path := data]> fs.
Proof.
  unfold write_file. destruct (writable fs path data); [|done].
  by intros [= <-].
Qed.

Lemma save_to_excel_Some fs row fs' :
  save_to_excel read_excel to_excel writable fs row = Some fs' ->
  exists df bytes,
    to_excel df = Some bytes /\ fs' = <[EXCEL_DB := bytes]> fs
    /\ df = updated_log (fs !! EXCEL_DB ≫= read_excel) row
    /\ (forall old, fs !! EXCEL_DB = Some old -> is_Some (read_excel old)).
Proof.
  unfold save_to_excel. intros Hs.
  destruct (fs !! EXCEL_DB) as [old|]; simpl in *.
  - destruct (read_excel old) as [existing|] eqn:Hold; [|done]. simpl in Hs.
    destruct (to_excel _) as [bytes|] eqn:Hto; [|done]. simpl in Hs.
    apply write_file_Some in Hs as ->.
    eexists _, bytes. split_and!; try done. intros ? [= <-]. by rewrite Hold.
  - destruct (to_excel _) as [bytes|] eqn:Hto; [|done]. simpl in Hs.
    apply write_file_Some in Hs as ->. by eexists _, bytes.
Qed.

(** The searches of a run always return: once the upload is written and
    the resume text read, a screening is shown, and what is left of [main]
    is the row, the log and the list of past records. *)
Lemma main_guarded fs f job_description fs1 resume_text :
  strip U job_description <> [] ->
  write_file writable fs (str "temp_" ++ up_name f) (up_buffer f) = Some fs1 ->
  (if endswith (up_name f) (str ".pdf")
   then read_pdf extract_text fs1 (str "temp_" ++ up_name f)
   else read_docx paragraphs fs1 (str "temp_" ++ up_name f)) = Some resume_text ->
  exists shown,
    main U nlp extract_text paragraphs read_excel to_excel writable now
         fs (Some f) job_description
    = Ok (match save_to_excel read_excel to_excel writable fs1
                  (new_row now (up_name f) (shown_email shown)
                     (shown_phone shown) (shown_score shown)
                     (shown_matched shown) (shown_skills shown)) with
          | Some fs2 =>
            Outcome (Some shown) (Some fs2) (past_records read_excel fs2)
          | None => Outcome (Some shown) None None
          end).
Proof.
  intros Hjob Hwrite Hread. unfold main. rewrite bool_decide_true by done.
  cbn zeta. rewrite Hwrite, Hread.
  set (skills := extract_skills U nlp job_description).
  rewrite matched_skills_filter.
  unfold score_resume. rewrite count_found_occurrences.
  cbn [mbind result_bind mret result_ret].
  rewrite extract_email_search. cbn [mbind result_bind].
  rewrite extract_phone_search. cbn [mbind result_bind].
  destruct (highlight_loop_inserts U
              (sorted_by_len_desc (List.filter (has_occurrence U resume_text) skills))
              resume_text) as (h & Hh & _).
  unfold highlight_text. rewrite Hh. cbn [mbind result_bind].
  match goal with
  | |- context [Screening ?e ?p ?sc ?sk ?m ?r] =>
      exists (Screening e p sc sk m r)
  end.
  cbn [shown_email shown_phone shown_score shown_matched shown_skills].
  by destruct (save_to_excel _ _ _ _ _).
Qed.

(** X17.  Every run of the script ends in an outcome of the model, never
    in an error of [re].  A run without an upload, or with a job
    description that is empty or white space only, shows no screening,
    leaves the files as they are and lists the past records, with an
    exception when the log cannot be read.  A screening is shown only when
    a file was uploaded, the description is not blank, the upload could be
    written to [temp_<name>] and the resume could be read from it. *)
Theorem main_returns_and_idle_run fs uploaded_file job_description :
  exists o,
    main U nlp extract_text paragraphs read_excel to_excel writable now
         fs uploaded_file job_description = Ok o
    /\ (uploaded_file = None
        \/ Forall (fun c => isspace U c = true) job_description ->
        o = Outcome None (Some fs) (past_records read_excel fs))
    /\ (is_Some (out_shown o) ->
        exists f fs1,
          uploaded_file = Some f
          /\ ~ Forall (fun c => isspace U c = true) job_description
          /\ write_file writable fs (str "temp_" ++ up_name f) (up_buffer f)
             = Some fs1
          /\ is_Some (if endswith (up_name f) (str ".pdf")
                      then read_pdf extract_text fs1 (str "temp_" ++ up_name f)
                      else read_docx paragraphs fs1 (str "temp_" ++ up_name f))).
Proof.
  destruct uploaded_file as [f|].
  2:{ eexists. split; [done|]. split; [done|]. by intros [? [=]]. }
  destruct (decide (strip U job_description = [])) as [Hblank|Hjob].
  { eexists. unfold main. rewrite bool_decide_false by auto.
    split; [done|]. split; [done|]. by intros [? [=]]. }
  assert (~ Forall (fun c => isspace U c = true) job_description) as Hnb.
  { by intros ?%strip_nil_iff. }
  destruct (write_file writable fs (str "temp_" ++ up_name f) (up_buffer f))
    as [fs1|] eqn:Hwrite.
  2:{ eexists. unfold main. rewrite bool_decide_true by done. cbn zeta.
      rewrite Hwrite. split; [done|].
      split; [by intros [[=]|?]|by intros [? [=]]]. }
  destruct (if endswith (up_name f) (str ".pdf")
            then read_pdf extract_text fs1 (str "temp_" ++ up_name f)
            else read_docx paragraphs fs1 (str "temp_" ++ up_name f))
    as [resume_text|] eqn:Hread.
  2:{ eexists. unfold main. rewrite bool_decide_true by done. cbn zeta.
      rewrite Hwrite, Hread. split; [done|].
      split; [by intros [[=]|?]|by intros [? [=]]]. }
  destruct (main_guarded fs f job_description fs1 resume_text Hjob Hwrite Hread)
    as [shown ->].
  eexists. split; [done|]. split; [by intros [[=]|?]|].
  intros _. exists f, fs1. by rewrite Hread.
Qed.

(** X18.  A run that shows a screening and gets through saving it leaves
    the bytes of the upload in [temp_<name>], which it never removes; the
    log holds the workbook of the frame that adds, to the frame read from
    the log before the run, the row built from the very values shown, so
    one row more; no other file is touched; and the past records listed
    are those read back from that workbook.  (A run can also show a
    screening and end in an exception while saving: it has no files in its
    outcome.) *)
Theorem main_saved_screening fs uploaded_file job_description o shown fs' :
  main U nlp extract_text paragraphs read_excel to_excel writable now
       fs uploaded_file job_description = Ok o ->
  out_shown o = Some shown -> out_files o = Some fs' ->
  exists f df bytes,
    uploaded_file = Some f
    /\ fs' !! (str "temp_" ++ up_name f) = Some (up_buffer f)
    /\ (forall path, path <> str "temp_" ++ up_name f -> path <> EXCEL_DB ->
          fs' !! path = fs !! path)
    /\ fs' !! EXCEL_DB = Some bytes /\ to_excel df = Some bytes
    /\ df = updated_log (fs !! EXCEL_DB ≫= read_excel)
              (new_row now (up_name f) (shown_email shown) (shown_phone shown)
                 (shown_score shown) (shown_matched shown) (shown_skills shown))
    /\ df_len df = from_option df_len 0 (fs !! EXCEL_DB ≫= read_excel) + 1
    /\ out_records o = Some <$> read_excel bytes.
Proof.
  destruct uploaded_file as [f|]; [|by intros [= <-]].
  destruct (decide (strip U job_description = [])) as [Hblank|Hjob].
  { unfold main. rewrite bool_decide_false by auto. by intros [= <-]. }
  destruct (write_file writable fs (str "temp_" ++ up_name f) (up_buffer f))
    as [fs1|] eqn:Hwrite.
  2:{ unfold main. rewrite bool_decide_true by done. cbn zeta.
      rewrite Hwrite. by intros [= <-]. }
  destruct (if endswith (up_name f) (str ".pdf")
            then read_pdf extract_text fs1 (str "temp_" ++ up_name f)
            else read_docx paragraphs fs1 (str "temp_" ++ up_name f))
    as [resume_text|] eqn:Hread.
  2:{ unfold main. rewrite bool_decide_true by done. cbn zeta.
      rewrite Hwrite, Hread. by intros [= <-]. }
  destruct (main_guarded fs f job_description fs1 resume_text Hjob Hwrite Hread)
    as [shown' ->].
  destruct (save_to_excel _ _ _ _ _) as [fs2|] eqn:Hsave;
    intros [= <-]; cbn [out_shown out_files out_records]; [|done].
  intros [= ->] [= <-].
  apply write_file_Some in Hwrite as ->.
  apply save_to_excel_Some in Hsave as (df & bytes & Hto & -> & Hdf & _).
  assert (<[str "temp_" ++ up_name f := up_buffer f]> fs !! EXCEL_DB
          = fs !! EXCEL_DB) as Hlog.
  { apply lookup_insert_ne. apply temp_file_not_log. }
  rewrite Hlog in Hdf. exists f, df, bytes. split_and!; try done.
  - rewrite lookup_insert_ne; [apply lookup_insert_eq|].
    intros Heq. by apply (temp_file_not_log (up_name f)).
  - intros path Hne1 Hne2.
    rewrite lookup_insert_ne by (intros Heq; by apply Hne2).
    apply lookup_insert_ne. intros Heq. by apply Hne1.
  - apply lookup_insert_eq.
  - rewrite Hdf. apply updated_log_len.
  - unfold past_records. by rewrite lookup_insert_eq.
Qed.

End MainFacts.

Lemma main_saved_screening_witness :
  exists o shown fs' f df bytes,
    main basic_latin python_doc pdf_text no_paragraphs workbook_frame
         workbook_bytes always_writable (str "2025-01-01 09:00:00")
         ∅ (Some (Upload (str "cv.pdf") [Byte.x25])) (str "Python")
    = Ok o
    /\ out_shown o = Some shown /\ out_files o = Some fs'
    /\ fs' !! (str "temp_" ++ up_name f) = Some (up_buffer f)
    /\ fs' !! EXCEL_DB = Some bytes /\ workbook_bytes df = Some bytes
    /\ df_len df = 1
    /\ out_records o = Some <$> workbook_frame bytes.
Proof.
  destruct (main basic_latin python_doc pdf_text no_paragraphs workbook_frame
              workbook_bytes always_writable (str "2025-01-01 09:00:00")
              ∅ (Some (Upload (str "cv.pdf") [Byte.x25])) (str "Python"))
    as [[[shown|] [fs'|] records]| |] eqn:Hrun;
    try (vm_compute in Hrun; discriminate Hrun).
  destruct (main_saved_screening _ _ _ _ _ _ _ _ _ _ _ _ _ _ Hrun eq_refl eq_refl)
    as (f & df & bytes & Hf & Htemp & _ & Hlog & Hto & _ & Hlen & Hrec).
  eexists _, shown, fs', f, df, bytes. split_and!; done.
Defined.

(** ** The log over several runs *)

Lemma is_finite_below f mb eb : below f mb eb -> is_finite f = true.
Proof. by destruct f as [[]| | |[] m e]. Qed.

(** The rows the script logs hold a finite score. *)
Lemma new_row_scored U T S score timestamp filename email phone matched :
  score_resume U T S = Ok score ->
  scored_row (new_row timestamp filename email phone score matched S).
Proof.
  intros Hscore. split; [done|]. cbn.
  revert Hscore. unfold score_resume. rewrite count_found_occurrences.
  cbn [mbind result_bind mret result_ret]. intros [= <-].
  destruct S as [|s S]; [by eexists|]. cbn [py_round2].
  fold (percentage (occurrence_count U T (s :: S)) (length (s :: S))).
  assert (below (float_round2
                   (percentage (occurrence_count U T (s :: S)) (length (s :: S))))
                7036874417766400 (-46)) as Hb.
  { apply float_round2_below, percentage_below;
      [apply length_filter_le|simpl; lia]. }
  destruct (float_round2 _) as [[]| | |[] m e]; try done; by eexists.
Qed.

Section LogRuns.
Context (read_excel : list Byte.byte -> option dataframe).
Context (to_excel : dataframe -> option (list Byte.byte)).
Context (writable : gmap pystr (list Byte.byte) -> pystr -> list Byte.byte -> bool).
Hypothesis round_trip : workbook_keeps_shape read_excel to_excel.

Lemma frame_of_record_scored row :
  scored_row row ->
  df_columns (frame_of_record row) = row_keys /\ scored (frame_of_record row).
Proof.
  intros [Hkeys (v & Hv & Hfin)]. split; [done|].
  intros i _. exists v. split; [|done]. simpl.
  by destruct (dict_get row (str "Match_Score(%)")) as [x|]; simplify_eq/=.
Qed.

Lemma updated_log_scored df row :
  df_columns df = row_keys -> scored df -> scored_row row ->
  df_columns (updated_log (Some df) row) = row_keys
  /\ scored (updated_log (Some df) row).
Proof.
  intros Hcols Hdf Hrow.
  destruct (frame_of_record_scored row Hrow) as [Hkeys Hnew].
  cbn [updated_log].
  rewrite (backfill_present (str "Email")), backfill_present;
    [|rewrite Hcols; set_solver|rewrite Hcols; set_solver].
  split.
  - unfold concat; simpl. destruct Hrow as [-> _].
    rewrite Hcols, filter_not_elem_of_self. apply app_nil_r.
  - intros i Hi. simpl in Hi |- *.
    assert (str "Match_Score(%)" ∈ row_keys) as Hin by set_solver.
    destruct (decide (i < df_len df)) as [Hlt|Hge].
    + rewrite bool_decide_true by done.
      rewrite bool_decide_true by (by rewrite Hcols). by apply Hdf.
    + rewrite bool_decide_false by done.
      rewrite bool_decide_true by (destruct Hrow as [-> _]; done).
      apply (Hnew (i - df_len df)). simpl. lia.
Qed.

(** One more row in the log: from no log, or from the workbook of a frame
    with the columns of [new_row] and a score in each of its [n] rows. *)
Lemma save_to_excel_scored fs row fs' n :
  match fs !! EXCEL_DB with
  | None => n = 0
  | Some old => exists df, to_excel df = Some old /\ df_columns df = row_keys
                           /\ scored df /\ df_len df = n
  end ->
  scored_row row ->
  save_to_excel read_excel to_excel writable fs row = Some fs' ->
  exists df bytes, fs' !! EXCEL_DB = Some bytes /\ to_excel df = Some bytes
    /\ df_columns df = row_keys /\ scored df /\ df_len df = S n.
Proof.
  intros Hlog Hrow Hsave.
  apply save_to_excel_Some in Hsave as (df & bytes & Hto & -> & -> & _).
  eexists _, bytes. split; [apply lookup_insert_eq|]. split; [done|].
  destruct (fs !! EXCEL_DB) as [old|]; simpl.
  - destruct Hlog as (df0 & Hto0 & Hcols0 & Hsc0 & Hlen0).
    destruct (round_trip df0 old Hcols0 Hsc0 Hto0)
      as (df1 & -> & Hcols1 & Hlen1 & Hsc1).
    destruct (updated_log_scored df1 row Hcols1 Hsc1 Hrow) as [? ?].
    split_and!; [done|done|].
    rewrite (updated_log_len (Some df1)). simpl. lia.
  - subst n. destruct (frame_of_record_scored row Hrow) as [? ?]. by split_and!.
Qed.

Lemma save_all_scored rows : forall fs fs' n,
  match fs !! EXCEL_DB with
  | None => n = 0
  | Some old => exists df, to_excel df = Some old /\ df_columns df = row_keys
                           /\ scored df /\ df_len df = n
  end ->
  Forall scored_row rows -> rows <> [] ->
  save_all read_excel to_excel writable fs rows = Some fs' ->
  exists df bytes, fs' !! EXCEL_DB = Some bytes /\ to_excel df = Some bytes
    /\ df_columns df = row_keys /\ scored df /\ df_len df = n + length rows.
Proof.
  induction rows as [|row rows IH]; intros fs fs' n Hlog Hrows Hne Hsave;
    [done|].
  apply Forall_cons in Hrows as [Hrow Hrows]. cbn [save_all] in Hsave.
  destruct (save_to_excel read_excel to_excel writable fs row) as [fs1|] eqn:Hs;
    [|done].
  simpl in Hsave.
  destruct (save_to_excel_scored fs row fs1 n Hlog Hrow Hs)
    as (df & bytes & Hb & Hto & Hcols & Hsc & Hlen).
  destruct rows as [|row' rows'].
  - injection Hsave as <-. exists df, bytes. split_and!; try done.
    simpl. lia.
  - destruct (IH fs1 fs' (S n)) as (df' & bytes' & ? & ? & ? & ? & Hlen');
      [rewrite Hb; by exists df|done|done|done|].
    exists df', bytes'. split_and!; try done. rewrite Hlen'. simpl. lia.
Qed.

(** X13.  Screenings saved one after the other, starting without a log,
    leave a log that reads back with the eight columns of [new_row] in their
    order and one row per screening, when the workbook of such a frame
    reads back with the columns and the number of rows it was written with
    (each run reads the log the run before it wrote).  The rows are those
    the script logs: the keys of [new_row] and a finite score. *)
Theorem log_after_screenings fs rows fs' :
  fs !! EXCEL_DB = None -> rows <> [] -> Forall scored_row rows ->
  save_all read_excel to_excel writable fs rows = Some fs' ->
  exists bytes df, fs' !! EXCEL_DB = Some bytes /\ read_excel bytes = Some df
    /\ df_columns df = row_keys /\ df_len df = length rows.
Proof.
  intros Hnone Hne Hrows Hsave.
  destruct (save_all_scored rows fs fs' 0) as (df & bytes & Hb & Hto & Hcols & Hsc & Hlen);
    [by rewrite Hnone|done|done|done|].
  destruct (round_trip df bytes Hcols Hsc Hto) as (df' & Hread & Hcols' & Hlen' & _).
  exists bytes, df'. split_and!; try done. by rewrite Hlen', Hlen.
Qed.
End LogRuns.

Lemma workbook_frame_keeps_shape :
  workbook_keeps_shape workbook_frame workbook_bytes.
Proof.
  intros df bytes Hcols Hsc [= <-]. eexists. split; [done|].
  split; [done|]. split; [simpl; apply repeat_length|].
  intros i _. by eexists.
Qed.

Lemma log_after_screenings_witness :
  exists fs' bytes df,
    save_all workbook_frame workbook_bytes always_writable ∅
      [jane_row; jane_row] = Some fs'
    /\ fs' !! EXCEL_DB = Some bytes /\ workbook_frame bytes = Some df
    /\ df_columns df = row_keys /\ df_len df = 2.
Proof.
  destruct (save_all workbook_frame workbook_bytes always_writable ∅
              [jane_row; jane_row]) as [fs'|] eqn:Hsave;
    [|vm_compute in Hsave; discriminate Hsave].
  destruct (log_after_screenings workbook_frame workbook_bytes always_writable
              workbook_frame_keeps_shape ∅ [jane_row; jane_row] fs')
    as (bytes & df & Hb & Hread & Hcols & Hlen);
    [done|discriminate| |done|].
  - repeat (constructor; [split; [reflexivity|by eexists]|]). constructor.
  - by exists fs', bytes, df.
Defined.

(** ** Text of a Word document *)

Lemma slice_app_l (p R : pystr) i j :
  i <= j <= length p -> slice (p ++ R) i j = slice p i j.
Proof.
  intros Hij. unfold slice. rewrite drop_app_le by lia.
  rewrite take_app_le; [done|]. rewrite length_drop. lia.
Qed.

Lemma slice_app_r (p R : pystr) i j :
  length p <= i -> slice (p ++ R) i j = slice R (i - length p) (j - length p).
Proof.
  intros Hi. unfold slice. rewrite drop_app_ge by lia. f_equal. lia.
Qed.

(** A stretch of [sep.join(parts)] without the separator lies within one
    of the parts. *)
Lemma slice_join_within (sep : char) parts i j :
  i < j <= length (join [sep] parts) ->
  sep ∉ slice (join [sep] parts) i j ->
  exists p i' j', p ∈ parts /\ i' <= j' <= length p
    /\ slice (join [sep] parts) i j = slice p i' j'.
Proof.
  revert i j. induction parts as [|p parts IH]; intros i j Hij Hsep;
    [simpl in Hij; lia|].
  destruct parts as [|q parts].
  { exists p, i, j. simpl in Hij. split; [by left|]. split; [lia|done]. }
  change (join [sep] (p :: q :: parts))
    with (p ++ [sep] ++ join [sep] (q :: parts)) in *.
  set (R := join [sep] (q :: parts)) in *.
  rewrite !length_app in Hij. simpl in Hij.
  destruct (decide (j <= length p)) as [Hj|Hj].
  - exists p, i, j. split; [by left|]. split; [lia|].
    apply slice_app_l. lia.
  - destruct (decide (length p < i)) as [Hi|Hi].
    + rewrite slice_app_r in Hsep |- * by lia.
      rewrite (slice_app_r [sep]) in Hsep |- * by (simpl; lia).
      simpl length in *.
      destruct (IH (i - length p - 1) (j - length p - 1)) as (p' & i' & j' & ? & ? & ?);
        [lia|done|].
      exists p', i', j'. split; [by right|]. by split.
    + exfalso. apply Hsep. apply list_elem_of_lookup.
      exists (length p - i). rewrite lookup_slice by lia.
      replace (i + (length p - i)) with (length p) by lia.
      change ([sep] ++ R) with (sep :: R). by rewrite list_lookup_middle.
Qed.

Lemma local_char_not_newline c : local_char c = true -> c <> 10%N.
Proof. by intros H ->. Qed.

Lemma domain_char_not_newline c : domain_char c = true -> c <> 10%N.
Proof. by intros H ->. Qed.

Lemma letter_not_newline c : is_ascii_letter c = true -> c <> 10%N.
Proof. by intros H ->. Qed.

Lemma is_email_one_line w : is_email w -> 10%N ∉ w.
Proof.
  intros (loc & dom & tld & -> & _ & Hloc & _ & Hdom & _ & Htld).
  rewrite !not_elem_of_app. 
  rewrite Forall_forall in Hloc, Hdom, Htld.
  split_and!.
  - intros H. by apply Hloc, local_char_not_newline in H.
  - by intros [=]%list_elem_of_singleton.
  - intros H. by apply Hdom, domain_char_not_newline in H.
  - by intros [=]%list_elem_of_singleton.
  - intros H. by apply Htld, letter_not_newline in H.
Qed.

(** X19.  An address found in the text of a Word document lies within
    one paragraph: [read_docx] joins the paragraphs by line feeds, and an
    address holds no line feed. *)
Theorem docx_email_within_paragraph U paragraphs r :
  extract_email U (join [10%N] paragraphs) = Ok r -> r <> not_found ->
  is_email r
  /\ exists p i j, p ∈ paragraphs /\ i <= j <= length p /\ r = slice p i j.
Proof.
  rewrite extract_email_search. set (T := join [10%N] paragraphs).
  pose proof (search_leftmost U T email_re 0 is_email eq_refl (lang_email_re U))
    as Hsearch.
  destruct (Re.search_from U false T email_re 0 0 false) as [[[b e] caps]|];
    [|by intros [= <-]].
  destruct Hsearch as ((i & j & Hij & Heq & Hmail & _) & _).
  intros [= <-] _. split; [done|]. rewrite Heq in *.
  assert (i < j) as Hlt.
  { destruct (decide (i < j)); [done|]. replace j with i in Hmail by lia.
    rewrite slice_empty in Hmail. apply is_email_has_at in Hmail.
    by apply elem_of_nil in Hmail. }
  destruct (slice_join_within 10%N paragraphs i j) as (p & i' & j' & ? & ? & ?);
    [subst T; lia|by apply is_email_one_line|].
  by exists p, i', j'.
Qed.

Lemma docx_email_within_paragraph_witness :
  is_email (str "jane@x.org")
  /\ exists p i j, p ∈ [str "Jane Doe"; str "mail: jane@x.org"]
       /\ i <= j <= length p /\ str "jane@x.org" = slice p i j.
Proof.
  apply (docx_email_within_paragraph basic_latin
           [str "Jane Doe"; str "mail: jane@x.org"] (str "jane@x.org")).
  - vm_compute. reflexivity.
  - discriminate.
Defined.

(** ** Concrete runs *)

(** Without [re.escape] a skill is read as pattern syntax: an opening
    parenthesis or a star does not compile, and a dot matches any
    character. *)
Example unescaped_skill_is_pattern_syntax :
  Re.parse (str "\b(\b") = ReError MissingParenthesis
  /\ Re.parse (str "\b*\b") = ReError NothingToRepeat
  /\ (p ← Re.compile true (str "\bnode.js\b");
      mret (bool_decide (is_Some (Re.search basic_latin p (str "nodexjs")))))
     = Ok true
  /\ skill_found basic_latin (str "nodexjs") (str "node.js") = Ok false.
Proof. vm_compute. by split_and!. Qed.

(** A skill that ends in a sign has a word boundary after it only where a
    word character follows. *)
Example skill_ending_in_sign :
  has_occurrence basic_latin (str "I know c++ well") (str "c++") = false
  /\ has_occurrence basic_latin (str "c++x") (str "c++") = true.
Proof. vm_compute. by split_and!. Qed.

Example contact_fields_of_jane :
  extract_email basic_latin (str "Contact: jane@example.com, +1 555-123-4567")
    = Ok (str "jane@example.com")
  /\ extract_phone basic_latin (str "Contact: jane@example.com, +1 555-123-4567")
    = Ok (str "+1 555-123-4567")
  /\ extract_email basic_latin (str "no address here") = Ok not_found
  /\ extract_phone basic_latin (str "call 555-1234") = Ok not_found.
Proof. vm_compute. by split_and!. Qed.

Example highlight_longest_first :
  highlight_text basic_latin (str "SQL and sql server") [str "sql"; str "sql server"]
  = Ok (str "<mark style='background:#fee2e2; padding:0.1rem 0.2rem; border-radius:0.2rem;'>SQL</mark> and <mark style='background:#fee2e2; padding:0.1rem 0.2rem; border-radius:0.2rem;'><mark style='background:#fee2e2; padding:0.1rem 0.2rem; border-radius:0.2rem;'>sql</mark> server</mark>").
Proof. vm_compute. reflexivity. Qed.

(** A phone number may run over two paragraphs of a Word document: the
    line feed between them is white space. *)
Example phone_spans_paragraphs :
  extract_phone basic_latin (join [10%N] [str "Tel 12345"; str "67890 ext"])
  = Ok (str "12345" ++ [10%N] ++ str "67890").
Proof. vm_compute. reflexivity. Qed.

(** The suffix test is case-sensitive, and rounding is to the nearest
    hundredth. *)
Example suffix_and_rounding :
  endswith (str "cv.pdf") (str ".pdf") = true
  /\ endswith (str "cv.PDF") (str ".pdf") = false
  /\ (score ← score_resume basic_latin (str "Experienced in Python and SQL")
                [str "python"; str "sql"; str "project management"];
      mret (py_round2 score))
     = Ok (PyFloat (int_true_divide 6667 100)).
Proof. vm_compute. by split_and!. Qed.

(** A mark can take a word boundary of its skill away: the marked text is
    then left as it is by a second pass. *)
Example mark_without_boundary_is_stable :
  highlight_text basic_latin (str "ASP.NET") [str ".net"]
  = Ok (str "ASP<mark style='background:#fee2e2; padding:0.1rem 0.2rem; border-radius:0.2rem;'>.NET</mark>")
  /\ highlight_twice basic_latin (str "ASP.NET") [str ".net"]
     = highlight_text basic_latin (str "ASP.NET") [str ".net"].
Proof. vm_compute. by split_and!. Qed.

(** A run whose upload cannot be written shows nothing; a run whose log
    cannot be written has shown its screening and ends in an exception. *)
Example runs_that_raise :
  main basic_latin python_doc pdf_text no_paragraphs workbook_frame
       workbook_bytes (fun _ _ _ => false) (str "2025-01-01 09:00:00")
       ∅ (Some (Upload (str "sub/cv.pdf") [Byte.x25])) (str "Python")
  = Ok (Outcome None None None)
  /\ exists shown,
       main basic_latin python_doc pdf_text no_paragraphs workbook_frame
            workbook_bytes
            (fun _ path _ => bool_decide (path <> EXCEL_DB))
            (str "2025-01-01 09:00:00")
            ∅ (Some (Upload (str "cv.pdf") [Byte.x25])) (str "Python")
       = Ok (Outcome (Some shown) None None).
Proof. split; [by vm_compute|]. eexists. vm_compute. reflexivity. Qed.
